(** * Command tables of the azure-cli core (src/azure/cli/commands/__init__.py)

    A shallow embedding of the module: the discovery of the installed command
    modules, the [LongRunningOperation] progress monitor, the [CommandTable]
    decorators and the loader [get_command_table], followed by the properties
    of each; and the script that installs the command modules
    (scripts/install_command_modules.py).

    Conventions of the embedding.
    - A Python [str] is a [string]; its order is the lexicographic order of
      the character codes, written out as [str_leb].
    - A Python [dict] whose order of iteration is observed (a command table)
      is a list of key/value pairs in insertion order, with [dict_get] and
      [dict_set]; a [dict] that is only read by key (a command entry, the
      keyword arguments of a call) is a [gmap].
    - A function object used as a key is compared by identity: a handler is
      a natural number.
    - A call that may raise returns a [res]: [Ret v] or [Raise e]. *)

From Stdlib Require Import ZArith.
From stdpp Require Import gmap strings list fin_maps pretty.
From Stdlib Require Import Sorting.Sorted Sorting.Permutation.

(** ** Exceptions and results *)

Inductive exn : Type :=
  | ImportError (module : string)
  | AttributeError (attribute : string)
  | KeyError (key : string)
  | TypeError (what : string)
  | OtherError (what : string).

(** [except ImportError] catches [ImportError] (and its subclasses, which are
    not told apart here). *)
Definition is_ImportError (e : exn) : bool :=
  match e with
  | ImportError _ => true
  | _ => false
  end.

Inductive res (A : Type) : Type :=
  | Ret (a : A)
  | Raise (e : exn).

Arguments Ret {A} a.
Arguments Raise {A} e.

#[global] Instance exn_eq_dec : EqDecision exn.
Proof. solve_decision. Defined.

#[global] Instance res_eq_dec {A : Type} `{EqDecision A} : EqDecision (res A).
Proof. solve_decision. Defined.

#[global] Instance res_ret : MRet res := fun A a => Ret a.

#[global] Instance res_bind : MBind res := fun A B k r =>
  match r with
  | Ret a => k a
  | Raise e => Raise e
  end.

(** ** Strings *)

(** [s.startswith(p)] *)
Fixpoint startswith (p s : string) : bool :=
  match p, s with
  | EmptyString, _ => true
  | String _ _, EmptyString => false
  | String a p', String b s' => if Ascii.eqb a b then startswith p' s' else false
  end.

(** [s.replace(old, new)] for a non-empty [old]: the occurrences of [old] are
    found from left to right and do not overlap.  [skip] counts the characters
    of an occurrence that are still to be dropped. *)
Fixpoint replace_from (old new : string) (skip : nat) (s : string) : string :=
  match s with
  | EmptyString => EmptyString
  | String c s' =>
      match skip with
      | S k => replace_from old new k s'
      | O =>
          if startswith old s
          then new +:+ replace_from old new (String.length old - 1) s'
          else String c (replace_from old new 0 s')
      end
  end.

Definition replace (old new s : string) : string := replace_from old new 0 s.

(** The order of [str]: character codes, lexicographically; a proper prefix
    comes first. *)
Fixpoint str_leb (a b : string) : bool :=
  match a, b with
  | EmptyString, _ => true
  | String _ _, EmptyString => false
  | String x a', String y b' =>
      if (Ascii.nat_of_ascii x <? Ascii.nat_of_ascii y)%nat then true
      else if (Ascii.nat_of_ascii x =? Ascii.nat_of_ascii y)%nat then str_leb a' b'
      else false
  end.

Definition str_le (a b : string) : Prop := str_leb a b = true.

(** The key with the leading prefix taken off, once: what the name of a
    command module is meant to be. *)
Fixpoint strip_prefix (p s : string) : option string :=
  match p, s with
  | EmptyString, _ => Some s
  | String _ _, EmptyString => None
  | String a p', String b s' => if Ascii.eqb a b then strip_prefix p' s' else None
  end.

(** ** Module discovery *)

(** What [get_installed_distributions(local_only=True)] returns: the
    distributions, of which only the [key] is read. *)
Record distribution : Type := { key : string }.

(** [INSTALLED_COMMAND_MODULES], as a function of the installed
    distributions. *)
Definition INSTALLED_COMMAND_MODULES (dists : list distribution) : list string :=
  map (fun dist => replace "azure-cli-" EmptyString (key dist))
      (filter (fun dist => startswith "azure-cli-" (key dist) = true) dists).

(** ** The monitor of long-running operations *)

(** What the monitor does to the outside world, in order: text written to a
    stream, a flush, a [time.sleep].  [Sleep ms] stands for
    [time.sleep(ms / 1000.0)]. *)
Inductive stream : Type :=
  | sys_stdout
  | sys_stderr
  | other_stream (id : nat).

#[global] Instance stream_eq_dec : EqDecision stream.
Proof. solve_decision. Defined.

Inductive event : Type :=
  | Write (f : stream) (s : string)
  | Flush (f : stream)
  | Sleep (ms : Z).

(** The line break. *)
Definition nl : string := String (Ascii.ascii_of_nat 10) EmptyString.

(** [print(x, end=e, file=f)]: with [file=None], [print] writes to
    [sys.stdout]. *)
Definition print (x e : string) (file : option stream) : list event :=
  [Write (default sys_stdout file) (x +:+ e)].

(** The text a stream has received. *)
Fixpoint written (f : stream) (tr : list event) : string :=
  match tr with
  | [] => EmptyString
  | Write g s :: tr' => if decide (g = f) then s +:+ written f tr' else written f tr'
  | _ :: tr' => written f tr'
  end.

Fixpoint dots (n : nat) : string :=
  match n with
  | O => EmptyString
  | S n' => "." +:+ dots n'
  end.

(** [progress_file] is an attribute of the class, read through [self]; it is
    false in a test when it is [None]. *)
Record LongRunningOperation : Type := {
  start_msg : string;
  finish_msg : string;
  poll_interval_ms : Z;
  progress_file : option stream
}.

(** [LongRunningOperation(start_msg, finish_msg, poll_interval_ms)] with the
    class as it is defined: [progress_file = sys.stderr]. *)
Definition LongRunningOperation_init (start finish : string) (interval : Z)
  : LongRunningOperation :=
  {| start_msg := start; finish_msg := finish; poll_interval_ms := interval;
     progress_file := Some sys_stderr |}.

(** A poller is an object of the caller's: its state is threaded through
    [done()] and [result()], either of which may raise. *)
Record Poller (St T : Type) : Type := {
  done : St -> res bool * St;
  result : St -> res T * St
}.

Arguments done {St T} _ _.
Arguments result {St T} _ _.

Section Monitor.
Context {St T : Type}.
(** [time.sleep(ms / 1000.0)] for an interval of [ms] milliseconds, as the
    platform has it: it returns, or it raises for an interval it does not
    take (a negative one: [ValueError] in Python 3; one too large:
    [OverflowError]). *)
Variable time_sleep : Z -> res unit.
Variable self : LongRunningOperation.
Variable poller : Poller St T.

(** The marker of one turn of the [while] loop, and its flush. *)
Definition marker_events : list event :=
  match progress_file self with
  | Some f => print "." EmptyString (Some f) ++ [Flush f]
  | None => []
  end.

(** One whole turn of the loop after [done()] has answered false: the
    marker, then a sleep that returns. *)
Definition poll_events : list event :=
  marker_events ++ [Sleep (poll_interval_ms self)].

(** [while not poller.done(): ...]; [None] when the fuel runs out before
    [done()] answers true or something raises.  A [time.sleep] that raises
    ends the loop after the marker of its turn. *)
Fixpoint poll (fuel : nat) (ps : St) : option (res unit * St * list event) :=
  match fuel with
  | O => None
  | S fuel' =>
      match done poller ps with
      | (Raise e, ps') => Some (Raise e, ps', [])
      | (Ret true, ps') => Some (Ret tt, ps', [])
      | (Ret false, ps') =>
          match time_sleep (poll_interval_ms self) with
          | Raise e => Some (Raise e, ps', marker_events)
          | Ret _ =>
              match poll fuel' ps' with
              | Some (r, ps'', tr) => Some (r, ps'', poll_events ++ tr)
              | None => None
              end
          end
      end
  end.

(** The [finally] clause. *)
Definition finalizer (succeeded : bool) : list event :=
  match progress_file self with
  | Some f =>
      print EmptyString nl (Some f)
      ++ print (if succeeded then finish_msg self else EmptyString) nl (Some f)
  | None => []
  end.

(** [self(poller)]: the outcome, the poller's last state and the events. *)
Definition call (fuel : nat) (ps : St) : option (res T * St * list event) :=
  let tr0 := print (start_msg self) nl (progress_file self) in
  match poll fuel ps with
  | None => None
  | Some (Raise e, ps1, tr1) => Some (Raise e, ps1, tr0 ++ tr1 ++ finalizer false)
  | Some (Ret _, ps1, tr1) =>
      match result poller ps1 with
      | (Ret v, ps2) => Some (Ret v, ps2, tr0 ++ tr1 ++ finalizer true)
      | (Raise e, ps2) => Some (Raise e, ps2, tr0 ++ tr1 ++ finalizer false)
      end
  end.

(** [done()] answers false [n] times from state [ps], then true, leaving
    the poller in state [ps']. *)
Inductive resolves_after : nat -> St -> St -> Prop :=
  | resolves_now ps ps' :
      done poller ps = (Ret true, ps') -> resolves_after 0 ps ps'
  | resolves_later n ps ps1 ps' :
      done poller ps = (Ret false, ps1) ->
      resolves_after n ps1 ps' ->
      resolves_after (S n) ps ps'.

End Monitor.

(** A poller that is pending for [ps] more polls; its result is [r]. *)
Definition countdown_poller {T : Type} (r : res T) : Poller nat T :=
  {| done := fun ps => (Ret (Nat.eqb ps 0), Nat.pred ps);
     result := fun ps => (r, ps) |}.

(** A [time.sleep] to try the monitor on: it takes the intervals that are
    not negative. *)
Definition sleep_example (ms : Z) : res unit :=
  if (ms <? 0)%Z then Raise (OtherError "ValueError") else Ret tt.

(** ** Ordered dictionaries *)

(** A [dict] in insertion order (Python 3.7 and later; [OrderedDict] always).
    [d[k] = v] keeps the place of a key that is present and puts a new key
    last. *)
Section Dict.
Context {K V : Type} `{EqDecision K}.

Fixpoint dict_get (k : K) (d : list (K * V)) : option V :=
  match d with
  | [] => None
  | (k', v) :: d' => if decide (k' = k) then Some v else dict_get k d'
  end.

Fixpoint dict_set (k : K) (v : V) (d : list (K * V)) : list (K * V) :=
  match d with
  | [] => [(k, v)]
  | (k', v') :: d' =>
      if decide (k' = k) then (k, v) :: d' else (k', v') :: dict_set k v d'
  end.

(** [d.update(other)] *)
Definition dict_update (d other : list (K * V)) : list (K * V) :=
  fold_left (fun acc item => dict_set item.1 item.2 acc) other d.

(** [OrderedDict(pairs)] *)
Definition OrderedDict (pairs : list (K * V)) : list (K * V) :=
  dict_update [] pairs.

(** The keys of a dictionary are distinct. *)
Definition is_dict (d : list (K * V)) : Prop := NoDup (map fst d).

#[global] Instance is_dict_dec (d : list (K * V)) : Decision (is_dict d).
Proof. unfold is_dict. apply _. Defined.

End Dict.

(** ** The command table and its decorators *)

(** The metadata handed through to the argument parser. *)
Inductive pyval : Type :=
  | PStr (s : string)
  | PBool (b : bool)
  | PInt (n : Z)
  | PNone.

#[global] Instance pyval_eq_dec : EqDecision pyval.
Proof. solve_decision. Defined.

(** What [option] appends: [dict(kwargs)] with its [name]. *)
Abbreviation argspec := (gmap string pyval).

(** A value of a command entry: a plain value or a list of argument specs.
    The list is given by its content: that two entries may hold one and the
    same list object (a list passed as [arguments=] to [command] on two
    functions) is not modelled. *)
Inductive field : Type :=
  | FVal (v : pyval)
  | FArgs (l : list argspec).

#[global] Instance field_eq_dec : EqDecision field.
Proof. solve_decision. Defined.

(** A command entry, [{name, **kwargs}] with its [arguments]. *)
Abbreviation entry := (gmap string field).

(** Handlers are function objects, keys by identity. *)
Abbreviation handler := nat.

(** [CommandTable]: func -> entry. *)
Abbreviation CommandTable := (list (handler * entry)).

(** The factory of the [defaultdict]: [lambda: {'arguments': []}]. *)
Definition default_entry : entry := {[ "arguments" := FArgs [] ]}.

(** [self[func]]: a missing key is first bound to a fresh default entry. *)
Definition getitem (func : handler) (self : CommandTable) : entry * CommandTable :=
  match dict_get func self with
  | Some e => (e, self)
  | None => (default_entry, dict_set func default_entry self)
  end.

(** [self[func][k] = v]: the entry is changed in place, in the table. *)
Definition setfield (func : handler) (k : string) (v : field) (self : CommandTable)
  : CommandTable :=
  let '(e, self) := getitem func self in
  dict_set func (<[k := v]> e) self.

(** Each decorator is given with the arguments of the annotation first, then
    the function it wraps and the table [self]; it returns what the wrapper
    returns and the table afterwards. *)

(** [command(name, **kwargs)]; Python binds a keyword [name] to the
    parameter, so [kwargs] has no key "name". *)
Definition command (name : string) (kwargs : gmap string field)
    (func : handler) (self : CommandTable) : res handler * CommandTable :=
  let self := setfield func "name" (FVal (PStr name)) self in
  let '(e, self) := getitem func self in
  let self := dict_set func (kwargs ∪ e) self in
  (Ret func, self).

Definition description (description : string)
    (func : handler) (self : CommandTable) : res handler * CommandTable :=
  let self := setfield func "description" (FVal (PStr description)) self in
  (Ret func, self).

Definition help (help_file : string)
    (func : handler) (self : CommandTable) : res handler * CommandTable :=
  let self := setfield func "help_file" (FVal (PStr help_file)) self in
  (Ret func, self).

(** [option(name, **kwargs)]; [self[func]['arguments'].append(opt)] raises
    when the entry has no "arguments" or a value there that is no list. *)
Definition option_ (name : string) (kwargs : argspec)
    (func : handler) (self : CommandTable) : res handler * CommandTable :=
  let opt := <["name" := PStr name]> kwargs in
  let '(e, self) := getitem func self in
  match e !! "arguments" with
  | Some (FArgs l) =>
      (Ret func, dict_set func (<["arguments" := FArgs (l ++ [opt])]> e) self)
  | Some (FVal _) => (Raise (AttributeError "append"), self)
  | None => (Raise (KeyError "arguments"), self)
  end.

(** An annotation, and a stack of them applied to one function, the first of
    the list first (the one written nearest to the [def]). *)
Inductive annotation : Type :=
  | ACommand (name : string) (kwargs : gmap string field)
  | ADescription (text : string)
  | AHelp (help_file : string)
  | AOption (name : string) (kwargs : argspec).

Definition decorate (a : annotation) : handler -> CommandTable -> res handler * CommandTable :=
  match a with
  | ACommand name kwargs => command name kwargs
  | ADescription text => description text
  | AHelp help_file => help help_file
  | AOption name kwargs => option_ name kwargs
  end.

Fixpoint stack (anns : list annotation) (func : handler) (self : CommandTable)
  : res handler * CommandTable :=
  match anns with
  | [] => (Ret func, self)
  | a :: anns' =>
      match decorate a func self with
      | (Ret func', self') => stack anns' func' self'
      | (Raise e, self') => (Raise e, self')
      end
  end.

Definition is_option (a : annotation) : bool :=
  match a with
  | AOption _ _ => true
  | _ => false
  end.

(** The fields a [command], [description] or [help] annotation sets. *)
Definition writes (a : annotation) : entry :=
  match a with
  | ACommand name kwargs => kwargs ∪ {[ "name" := FVal (PStr name) ]}
  | ADescription text => {[ "description" := FVal (PStr text) ]}
  | AHelp help_file => {[ "help_file" := FVal (PStr help_file) ]}
  | AOption _ _ => ∅
  end.

(** The spec an [option] annotation appends. *)
Definition spec_of (a : annotation) : list argspec :=
  match a with
  | AOption name kwargs => [<["name" := PStr name]> kwargs]
  | _ => []
  end.

(** The entry of [func], as [self[func]] would give it. *)
Definition entry_of (func : handler) (self : CommandTable) : entry :=
  default default_entry (dict_get func self).

(** What an annotation does to the entry of its function. *)
Definition annotate (a : annotation) (e : entry) : res entry :=
  match a with
  | AOption name kwargs =>
      match e !! "arguments" with
      | Some (FArgs l) => Ret (<["arguments" := FArgs (l ++ spec_of a)]> e)
      | Some (FVal _) => Raise (AttributeError "append")
      | None => Raise (KeyError "arguments")
      end
  | _ => Ret (writes a ∪ e)
  end.

Fixpoint annotate_all (anns : list annotation) (e : entry) : res entry :=
  match anns with
  | [] => Ret e
  | a :: anns' => e' ← annotate a e; annotate_all anns' e'
  end.

(** The fields set by the annotations, a later one over an earlier one. *)
Definition apply_writes (anns : list annotation) (e : entry) : entry :=
  fold_left (fun e a => writes a ∪ e) anns e.

(** The [command], [description] and [help] annotations of a stack; its
    [option] annotations; the specs these append. *)
Definition setters (anns : list annotation) : list annotation :=
  filter (fun a => is_option a = false) anns.

Definition options (anns : list annotation) : list annotation :=
  filter (fun a => is_option a = true) anns.

Definition specs (anns : list annotation) : list argspec :=
  flat_map spec_of anns.

(** No two annotations of the list set the same field. *)
Fixpoint no_conflict (anns : list annotation) : Prop :=
  match anns with
  | [] => True
  | a :: anns' => Forall (fun b => writes a ##ₘ writes b) anns' /\ no_conflict anns'
  end.

(** The entry of [func] after a stack of annotations in a new table. *)
Definition annotated (anns : list annotation) (func : handler) : option entry :=
  dict_get func (stack anns func []).2.

(** ** The loader *)

(** [sorted(l, key=...)] on string keys: the sort is stable, and a stable
    sort has one possible result, so that insertion sort stands for it. *)
Section Sorted.
Context {A : Type}.
Variable key : A -> string.

Fixpoint insert_by (x : A) (l : list A) : list A :=
  match l with
  | [] => [x]
  | y :: l' => if str_leb (key x) (key y) then x :: y :: l' else y :: insert_by x l'
  end.

(** The order of the keys, on the items. *)
Definition key_le (x y : A) : Prop := str_le (key x) (key y).

Fixpoint sorted (l : list A) : list A :=
  match l with
  | [] => []
  | x :: l' => insert_by x (sorted l')
  end.

End Sorted.

(** [mapM] over [res]: the first exception, from left to right, is raised. *)
Fixpoint res_mapM {A B : Type} (f : A -> res B) (l : list A) : res (list B) :=
  match l with
  | [] => Ret []
  | x :: l' => y ← f x; ys ← res_mapM f l'; Ret (y :: ys)
  end.

(** [item[1]['name']], the key function of the sort. *)
Definition item_name (item : handler * entry) : res field :=
  match item.2 !! "name" with
  | Some v => Ret v
  | None => Raise (KeyError "name")
  end.

(** The keys are ordered as strings.  A table in which some name is no
    string is outside this model: it is reported as [TypeError], which
    Python 3 raises only when two names that have no order are compared (a
    string and a number), not for a single entry or for names that are all
    numbers. *)
Definition as_str (v : field) : res string :=
  match v with
  | FVal (PStr s) => Ret s
  | _ => Raise (TypeError "name")
  end.

(** [OrderedDict(sorted(command_table.items(), key=lambda item: item[1]['name']))]:
    the key function is first called on every item, then the keys are
    compared. *)
Definition ordered_commands (command_table : CommandTable) : res CommandTable :=
  keyed ← res_mapM (fun item => k ← item_name item; Ret (k, item)) command_table;
  keyed ← res_mapM (fun ki : field * (handler * entry) => s ← as_str ki.1; Ret (s, ki.2)) keyed;
  Ret (OrderedDict (map snd (sorted fst keyed))).

(** An imported module; [command_table] is [None] when the module has no
    such attribute. *)
Record module : Type := { command_table : option CommandTable }.

#[global] Instance module_eq_dec : EqDecision module.
Proof. solve_decision. Defined.

(** ['azure.cli.command_modules.' + module_name] *)
Definition full_name (module_name : string) : string :=
  "azure.cli.command_modules." +:+ module_name.

Section Loader.
(** [import_module], as the installation answers it, and the names in
    [INSTALLED_COMMAND_MODULES]. *)
Variable import_module : string -> res module.
Variable installed : list string.

(** The state threaded through the loader is the list of the names passed
    to [import_module] so far. *)
Definition _get_command_table (module_name : string) (imports : list string)
  : res CommandTable * list string :=
  let imports := imports ++ [full_name module_name] in
  match import_module (full_name module_name) with
  | Ret m =>
      match command_table m with
      | Some t => (Ret t, imports)
      | None => (Raise (AttributeError "command_table"), imports)
      end
  | Raise e => (Raise e, imports)
  end.

(** [for mod in INSTALLED_COMMAND_MODULES:
       command_table.update(_get_command_table(mod))] *)
Fixpoint load_all (mods : list string) (command_table : CommandTable)
    (imports : list string) : res CommandTable * list string :=
  match mods with
  | [] => (Ret command_table, imports)
  | module_name :: mods' =>
      match _get_command_table module_name imports with
      | (Ret t, imports) => load_all mods' (dict_update command_table t) imports
      | (Raise e, imports) => (Raise e, imports)
      end
  end.

(** [if module_name:] holds for a string that is not empty. *)
Definition truthy (module_name : option string) : option string :=
  match module_name with
  | Some EmptyString => None
  | Some name => Some name
  | None => None
  end.

(** The [try] of [get_command_table]: the table of the named module, [None]
    when nothing is loaded yet. *)
Definition load_named (module_name : option string) (imports : list string)
  : res (option CommandTable) * list string :=
  match truthy module_name with
  | Some name =>
      match _get_command_table name imports with
      | (Ret t, imports) => (Ret (Some t), imports)
      | (Raise e, imports) =>
          if is_ImportError e then (Ret None, imports) else (Raise e, imports)
      end
  | None => (Ret None, imports)
  end.

Definition get_command_table (module_name : option string) (imports : list string)
  : res CommandTable * list string :=
  match load_named module_name imports with
  | (Raise e, imports) => (Raise e, imports)
  | (Ret (Some t), imports) => (ordered_commands t, imports)
  | (Ret None, imports) =>
      match load_all installed [] imports with
      | (Ret t, imports) => (ordered_commands t, imports)
      | (Raise e, imports) => (Raise e, imports)
      end
  end.

(** Module [module_name] imports and has the command table [t]. *)
Definition exports (module_name : string) (t : CommandTable) : Prop :=
  exists m, import_module (full_name module_name) = Ret m /\ command_table m = Some t.

(** The hint loads nothing: there is none, or its import raises
    [ImportError]. *)
Definition falls_back (module_name : option string) : Prop :=
  match truthy module_name with
  | Some name =>
      exists e, import_module (full_name name) = Raise e /\ is_ImportError e = true
  | None => True
  end.

End Loader.

(** The names of a table, in the order of iteration. *)
Definition name_of (e : entry) : option string :=
  match e !! "name" with
  | Some (FVal (PStr s)) => Some s
  | _ => None
  end.

Definition names (t : CommandTable) : option (list string) :=
  mapM (fun item : handler * entry => name_of item.2) t.

(** An entry has a name to sort it by. *)
Definition named (item : handler * entry) : Prop := is_Some (name_of item.2).

(** The items with their sort keys. *)
Definition keyed_of (t : CommandTable) : list (string * (handler * entry)) :=
  map (fun item => (default EmptyString (name_of item.2), item)) t.

(** The entry of the last table, in the order of the list, that binds
    handler [h]. *)
Definition last_registered (h : handler) (tables : list CommandTable) : option entry :=
  fold_left (fun found t => match dict_get h t with Some e => Some e | None => found end)
            tables None.

(** An installation to try the loader on: module A registers "x y", module B
    registers "x y" and "a b", under three different handlers; module [bare]
    has no [command_table]; importing module [broken] raises an error that is
    no [ImportError]; nothing else can be imported. *)
Definition named_entry (name text : string) : entry :=
  <["name" := FVal (PStr name)]> (<["description" := FVal (PStr text)]> default_entry).

Definition table_A : CommandTable := [(1, named_entry "x y" "from A")].

Definition table_B : CommandTable :=
  [(2, named_entry "x y" "from B"); (3, named_entry "a b" "from B")].

Definition import_example (name : string) : res module :=
  if decide (name = "azure.cli.command_modules.A")
  then Ret {| command_table := Some table_A |}
  else if decide (name = "azure.cli.command_modules.B")
  then Ret {| command_table := Some table_B |}
  else if decide (name = "azure.cli.command_modules.bare")
  then Ret {| command_table := None |}
  else if decide (name = "azure.cli.command_modules.broken")
  then Raise (OtherError "SyntaxError")
  else Raise (ImportError name).

(** ** Further notions for the properties below *)

(** [old] occurs in [s], at some position. *)
Fixpoint occurs (old s : string) : bool :=
  startswith old s
  || match s with
     | EmptyString => false
     | String _ s' => occurs old s'
     end.

Section Pending.
Context {St T : Type}.
Variable poller : Poller St T.

(** [done()] answers false [n] times in a row, taking the poller from state
    [ps] to state [ps']. *)
Inductive pending_for : nat -> St -> St -> Prop :=
  | pending_none ps : pending_for 0 ps ps
  | pending_more n ps ps1 ps' :
      done poller ps = (Ret false, ps1) ->
      pending_for n ps1 ps' ->
      pending_for (S n) ps ps'.

End Pending.

(** A table as the decorators keep it: its handlers are distinct and every
    entry has the key "arguments". *)
Definition wf_table (t : CommandTable) : Prop :=
  is_dict t /\ Forall (fun item => is_Some (item.2 !! "arguments")) t.

(** The import that [get_command_table] tries for its hint. *)
Definition hint_attempt (module_name : option string) : list string :=
  match truthy module_name with
  | Some name => [full_name name]
  | None => []
  end.

(** ** The script that installs the command modules *)

(** What the script does that can be seen from outside: a line printed on a
    stream ([print(line, file=f)]) and a shell command run by [check_call]. *)
Inductive script_event : Type :=
  | Printed (f : stream) (line : string)
  | Called (cmd : string).

#[global] Instance script_event_eq_dec : EqDecision script_event.
Proof. solve_decision. Defined.

(** [CalledProcessError(returncode, cmd)] *)
Record CalledProcessError : Type := { returncode : Z; cmd : string }.

Section InstallScript.
(** The surroundings of the script: [PATH_TO_COMMAND_MODULES], [os.path.join]
    as the platform has it, the names [os.listdir] gives for that path,
    [os.path.isdir], the exit status of a shell command run by [check_call]
    (which raises [CalledProcessError] when the status is not 0), and the text
    of such an error, [str(err)]. *)
Variable PATH_TO_COMMAND_MODULES : string.
Variable path_join : string -> string -> string.
Variable listdir : list string.
Variable isdir : string -> bool.
Variable exit_status : string -> Z.
Variable str_err : CalledProcessError -> string.

Definition COMMAND_MODULE_PREFIX : string := "azure-cli-".

Definition all_command_modules : list (string * string) :=
  map (fun name => (name, path_join PATH_TO_COMMAND_MODULES name))
      (filter (fun name => startswith COMMAND_MODULE_PREFIX name
                           && isdir (path_join PATH_TO_COMMAND_MODULES name) = true)
              listdir).

(** ["pip install -e " + path_to_module]; [os.path.join] of one path is that
    path. *)
Definition pip_install (module : string * string) : string :=
  "pip install -e " +:+ module.2.

(** The loop over the modules: the modules that failed with their errors,
    and the events in order. *)
Fixpoint install_each (modules : list (string * string))
  : list (string * CalledProcessError) * list script_event :=
  match modules with
  | [] => ([], [])
  | module :: modules' =>
      let '(failed_modules, events) := install_each modules' in
      if (exit_status (pip_install module) =? 0)%Z
      then (failed_modules, Called (pip_install module) :: events)
      else
        let err := {| returncode := exit_status (pip_install module);
                      cmd := pip_install module |} in
        ((module.1, err) :: failed_modules,
         Called (pip_install module) :: Printed sys_stderr (str_err err) :: events)
  end.

(** The script, from the listing of the directory to its end: the exit
    status ([sys.exit(1)], or 0 at the end of the file) and the events. *)
Definition install_command_modules : Z * list script_event :=
  if decide (all_command_modules = []) then
    (1%Z,
     [Printed sys_stderr
        "No command modules found. If there are no command modules. This file should not be loaded in .travis.yml"])
  else
    let '(failed_modules, events) := install_each all_command_modules in
    let events :=
      [Printed sys_stdout
         (pretty (length all_command_modules) +:+ " command module(s) found...");
       Printed sys_stdout "Installing each one."]
      ++ events
      ++ [Printed sys_stdout EmptyString; Printed sys_stdout "SUMMARY";
          Printed sys_stdout "-------"] in
    match failed_modules with
    | _ :: _ =>
        (1%Z,
         events
         ++ [Printed sys_stderr
               (pretty (length failed_modules) +:+ " module(s) FAILED install...");
             Printed sys_stderr
               ("Failed modules: " +:+ String.concat ", " (map fst failed_modules))])
    | [] =>
        (0%Z,
         events
         ++ [Printed sys_stdout (String.concat nl (map fst all_command_modules));
             Printed sys_stdout "INSTALLED COMMAND MODULES OK"])
    end.

(** The shell commands among the events, in order. *)
Definition commands_run (events : list script_event) : list string :=
  omap (fun ev => match ev with Called c => Some c | Printed _ _ => None end) events.

(** The modules whose install does not end with status 0. *)
Definition failing (modules : list (string * string)) : list (string * string) :=
  filter (fun module => exit_status (pip_install module) <> 0%Z) modules.

End InstallScript.

(** A closed, decidable statement is settled by evaluating its decision. *)
Ltac by_evaluation := apply (bool_decide_unpack _); vm_compute; exact I.

(** * Properties *)

(** ** Strings *)

Lemma append_cons (x : Ascii.ascii) (a b : string) :
  String x a +:+ b = String x (a +:+ b).
Proof. reflexivity. Qed.

Lemma append_assoc (a b c : string) : (a +:+ b) +:+ c = a +:+ (b +:+ c).
Proof.
  induction a as [|x a IH]; [reflexivity |].
  rewrite !append_cons. f_equal. exact IH.
Qed.

Lemma append_empty_r (a : string) : a +:+ EmptyString = a.
Proof.
  induction a as [|x a IH]; [reflexivity |].
  rewrite append_cons. f_equal. exact IH.
Qed.

Lemma str_leb_refl (a : string) : str_leb a a = true.
Proof.
  induction a as [|x a IH]; simpl; [reflexivity |].
  rewrite Nat.ltb_irrefl, Nat.eqb_refl. exact IH.
Qed.

Lemma str_leb_total (a b : string) : str_leb a b = false -> str_leb b a = true.
Proof.
  revert b. induction a as [|x a IH]; intros [|y b]; simpl; try congruence.
  destruct (Nat.ltb_spec (Ascii.nat_of_ascii x) (Ascii.nat_of_ascii y)); [congruence |].
  destruct (Nat.eqb_spec (Ascii.nat_of_ascii x) (Ascii.nat_of_ascii y)) as [E | NE].
  - rewrite E, Nat.ltb_irrefl, Nat.eqb_refl. apply IH.
  - intros _.
    destruct (Nat.ltb_spec (Ascii.nat_of_ascii y) (Ascii.nat_of_ascii x)); [reflexivity | lia].
Qed.

Lemma str_leb_trans (a b c : string) :
  str_leb a b = true -> str_leb b c = true -> str_leb a c = true.
Proof.
  revert b c. induction a as [|x a IH]; intros [|y b] [|z c]; simpl; try congruence.
  destruct (Nat.ltb_spec (Ascii.nat_of_ascii x) (Ascii.nat_of_ascii y)) as [Hxy | Hxy];
    destruct (Nat.ltb_spec (Ascii.nat_of_ascii y) (Ascii.nat_of_ascii z)) as [Hyz | Hyz];
    destruct (Nat.ltb_spec (Ascii.nat_of_ascii x) (Ascii.nat_of_ascii z)) as [Hxz | Hxz];
    try reflexivity;
    destruct (Nat.eqb_spec (Ascii.nat_of_ascii x) (Ascii.nat_of_ascii y));
    destruct (Nat.eqb_spec (Ascii.nat_of_ascii y) (Ascii.nat_of_ascii z));
    destruct (Nat.eqb_spec (Ascii.nat_of_ascii x) (Ascii.nat_of_ascii z));
    try congruence; try lia.
  apply IH.
Qed.

(** ** Module discovery *)

(** C9, on the code: a distribution whose key holds the text "azure-cli-" a
    second time loses both occurrences, since [str.replace] rewrites every
    occurrence; the key without its leading prefix is another name. *)
Example C9_replace_strips_every_occurrence :
  INSTALLED_COMMAND_MODULES [ {| key := "azure-cli-vm-azure-cli-ext" |} ] = ["vm-ext"]
  /\ strip_prefix "azure-cli-" "azure-cli-vm-azure-cli-ext" = Some "vm-azure-cli-ext"
  /\ INSTALLED_COMMAND_MODULES [ {| key := "azure-cli-vm" |}; {| key := "pip" |} ] = ["vm"].
Proof. repeat split. Qed.

(** ** The monitor *)

Lemma written_app (f : stream) (a b : list event) :
  written f (a ++ b) = written f a +:+ written f b.
Proof.
  induction a as [|[g s | g | ms] a IH]; cbn [written app]; try assumption;
    [reflexivity |].
  destruct (decide (g = f)); [| assumption].
  now rewrite IH, append_assoc.
Qed.

Lemma written_print (f : stream) (x e : string) :
  written f (print x e (Some f)) = x +:+ e.
Proof.
  unfold print. simpl. destruct (decide (f = f)); [| congruence].
  now rewrite append_empty_r.
Qed.

Section MonitorFacts.
Context {St T : Type}.
Variable time_sleep : Z -> res unit.
Variable self : LongRunningOperation.
Variable poller : Poller St T.
Variable f : stream.
Hypothesis to_stream : progress_file self = Some f.

Lemma written_marker_events : written f (marker_events self) = ".".
Proof.
  unfold marker_events. rewrite to_stream. simpl.
  destruct (decide (f = f)); [reflexivity | congruence].
Qed.

Lemma written_poll_events : written f (poll_events self) = ".".
Proof.
  unfold poll_events. rewrite written_app, written_marker_events. reflexivity.
Qed.

Lemma written_finalizer (succeeded : bool) :
  written f (finalizer self succeeded)
  = nl +:+ (if succeeded then finish_msg self else EmptyString) +:+ nl.
Proof.
  unfold finalizer. rewrite to_stream, written_app, !written_print. reflexivity.
Qed.

(** The loop of a poller that resolves after [n] polls ends, with [n]
    markers written, when the sleeps between the polls return. *)
Lemma poll_resolves (n : nat) (ps ps' : St) :
  resolves_after poller n ps ps' ->
  (0 < n -> time_sleep (poll_interval_ms self) = Ret tt) ->
  forall fuel, n < fuel ->
  exists tr, poll time_sleep self poller fuel ps = Some (Ret tt, ps', tr)
             /\ written f tr = dots n.
Proof.
  induction 1 as [ps ps' Hdone | n ps ps1 ps' Hdone Hrest IH];
    intros Hsleep fuel Hfuel.
  - destruct fuel as [|fuel]; [lia |].
    exists []. simpl. now rewrite Hdone.
  - destruct fuel as [|fuel]; [lia |].
    assert (Hsleeps : time_sleep (poll_interval_ms self) = Ret tt) by (apply Hsleep; lia).
    destruct (IH (fun _ => Hsleeps) fuel) as (tr & Hpoll & Hw); [lia |].
    exists (poll_events self ++ tr). simpl. rewrite Hdone, Hsleeps, Hpoll.
    split; [reflexivity |].
    now rewrite written_app, written_poll_events, Hw.
Qed.

End MonitorFacts.

(** C3: a poller that answers false to [done()] [n] times and then gives its
    result [v] makes the monitor write the start message and a line break, [n]
    dots, a line break, the finish message and a line break to the progress
    stream, and return [v]; the sleeps between the polls, if there are any,
    are taken to return ([time.sleep] raises for a negative interval). *)
Theorem C3_monitor_success_output {St T : Type}
    (time_sleep : Z -> res unit)
    (self : LongRunningOperation) (poller : Poller St T) (f : stream)
    (n : nat) (ps ps' ps'' : St) (v : T) (fuel : nat) :
  progress_file self = Some f ->
  (0 < n -> time_sleep (poll_interval_ms self) = Ret tt) ->
  resolves_after poller n ps ps' ->
  result poller ps' = (Ret v, ps'') ->
  n < fuel ->
  exists tr,
    call time_sleep self poller fuel ps = Some (Ret v, ps'', tr)
    /\ written f tr
       = start_msg self +:+ nl +:+ dots n +:+ nl +:+ finish_msg self +:+ nl.
Proof.
  intros Hf Hsleep Hres Hresult Hfuel.
  destruct (poll_resolves time_sleep self poller f Hf n ps ps' Hres Hsleep fuel Hfuel)
    as (tr & Hpoll & Hw).
  eexists. unfold call. rewrite Hpoll, Hresult. split; [reflexivity |].
  rewrite !written_app, Hw, (written_finalizer self f Hf), Hf, written_print.
  now rewrite !append_assoc.
Qed.

Lemma C3_monitor_success_output_witness :
  exists tr,
    call sleep_example (LongRunningOperation_init "creating" "created" 1000)
         (countdown_poller (Ret 7)) 5 3 = Some (Ret 7, 0, tr)
    /\ written sys_stderr tr
       = "creating" +:+ nl +:+ dots 3 +:+ nl +:+ "created" +:+ nl.
Proof.
  apply (C3_monitor_success_output sleep_example
           (LongRunningOperation_init "creating" "created" 1000)
           (countdown_poller (Ret 7)) sys_stderr 3 3 0 0 7 5).
  - reflexivity.
  - reflexivity.
  - repeat (eapply resolves_later; [reflexivity |]). apply resolves_now. reflexivity.
  - reflexivity.
  - lia.
Defined.

(** C4: when [result()] raises after [n] polls, the [finally] clause has
    written its two line breaks, once, after the [n] dots, and the exception
    is the outcome of the call; the sleeps between the polls, if there are
    any, are taken to return. *)
Theorem C4_monitor_fault_output {St T : Type}
    (time_sleep : Z -> res unit)
    (self : LongRunningOperation) (poller : Poller St T) (f : stream)
    (n : nat) (ps ps' ps'' : St) (e : exn) (fuel : nat) :
  progress_file self = Some f ->
  (0 < n -> time_sleep (poll_interval_ms self) = Ret tt) ->
  resolves_after poller n ps ps' ->
  result poller ps' = (Raise e, ps'') ->
  n < fuel ->
  exists tr,
    call time_sleep self poller fuel ps = Some (Raise e, ps'', tr)
    /\ written f tr = start_msg self +:+ nl +:+ dots n +:+ nl +:+ nl.
Proof.
  intros Hf Hsleep Hres Hresult Hfuel.
  destruct (poll_resolves time_sleep self poller f Hf n ps ps' Hres Hsleep fuel Hfuel)
    as (tr & Hpoll & Hw).
  eexists. unfold call. rewrite Hpoll, Hresult. split; [reflexivity |].
  rewrite !written_app, Hw, (written_finalizer self f Hf), Hf, written_print.
  now rewrite !append_assoc.
Qed.

Lemma C4_monitor_fault_output_witness :
  exists tr,
    call sleep_example (LongRunningOperation_init "creating" "created" 1000)
         (countdown_poller (T := nat) (Raise (OtherError "failed"))) 5 2
    = Some (Raise (OtherError "failed"), 0, tr)
    /\ written sys_stderr tr = "creating" +:+ nl +:+ dots 2 +:+ nl +:+ nl.
Proof.
  apply (C4_monitor_fault_output sleep_example
           (LongRunningOperation_init "creating" "created" 1000)
           (countdown_poller (Raise (OtherError "failed"))) sys_stderr 2 2 0 0
           (OtherError "failed") 5).
  - reflexivity.
  - reflexivity.
  - repeat (eapply resolves_later; [reflexivity |]). apply resolves_now. reflexivity.
  - reflexivity.
  - lia.
Defined.

(** ** Ordered dictionaries *)

Section DictFacts.
Context {K V : Type} `{EqDecision K}.
Implicit Types (k : K) (v : V) (d : list (K * V)).

Lemma dict_get_set_eq k v d : dict_get k (dict_set k v d) = Some v.
Proof.
  induction d as [|[k' v'] d IH]; simpl.
  - destruct (decide (k = k)); congruence.
  - destruct (decide (k' = k)) as [E | NE]; simpl.
    + destruct (decide (k = k)); congruence.
    + destruct (decide (k' = k)); [congruence | exact IH].
Qed.

Lemma dict_get_set_ne k k' v d :
  k <> k' -> dict_get k' (dict_set k v d) = dict_get k' d.
Proof.
  intros NE. induction d as [|[k1 v1] d IH]; simpl.
  - destruct (decide (k = k')); congruence.
  - destruct (decide (k1 = k)) as [E | NE1]; simpl.
    + subst k1. destruct (decide (k = k')); congruence.
    + destruct (decide (k1 = k')); [reflexivity | exact IH].
Qed.

Lemma dict_get_None k d : ~ In k (map fst d) -> dict_get k d = None.
Proof.
  induction d as [|[k' v'] d IH]; simpl; [reflexivity |].
  intros Hnotin. destruct (decide (k' = k)); [tauto |]. apply IH. tauto.
Qed.

Lemma dict_get_In k v d : dict_get k d = Some v -> In (k, v) d.
Proof.
  induction d as [|[k' v'] d IH]; simpl; [discriminate |].
  destruct (decide (k' = k)); [intros [= ->]; subst; now left | auto].
Qed.

Lemma In_dict_get k v d : is_dict d -> In (k, v) d -> dict_get k d = Some v.
Proof.
  unfold is_dict. induction d as [|[k' v'] d IH]; simpl; [tauto |].
  intros Hnd [Heq | Hin]; apply NoDup_cons in Hnd as [Hnotin Hnd].
  - injection Heq as -> ->. destruct (decide (k = k)); congruence.
  - destruct (decide (k' = k)) as [-> | NE]; [| now apply IH].
    exfalso. apply Hnotin. apply list_elem_of_In.
    change k with (fst (k, v)). now apply in_map.
Qed.

(** A dictionary is read by key: the order of its items is of no account. *)
Lemma dict_get_Permutation k d d' :
  Permutation d d' -> is_dict d -> dict_get k d = dict_get k d'.
Proof.
  intros Hperm Hd.
  assert (Hd' : is_dict d').
  { unfold is_dict in *. now rewrite <- Hperm. }
  destruct (dict_get k d) as [v|] eqn:E.
  - symmetry. apply In_dict_get; [exact Hd' |].
    eapply Permutation_in; [exact Hperm |]. now apply dict_get_In.
  - destruct (dict_get k d') as [v'|] eqn:E'; [| reflexivity].
    apply dict_get_In in E'. apply Permutation_sym in Hperm.
    apply (Permutation_in _ Hperm) in E'.
    apply (In_dict_get _ _ _ Hd) in E'. congruence.
Qed.

Lemma dict_set_fresh k v d :
  ~ In k (map fst d) -> dict_set k v d = d ++ [(k, v)].
Proof.
  induction d as [|[k' v'] d IH]; simpl; [reflexivity |].
  intros Hnotin. destruct (decide (k' = k)); [tauto |].
  f_equal. apply IH. tauto.
Qed.

Lemma keys_dict_set k v d x :
  In x (map fst (dict_set k v d)) <-> x = k \/ In x (map fst d).
Proof.
  induction d as [|[k' v'] d IH]; simpl; [intuition congruence |].
  destruct (decide (k' = k)) as [-> | NE]; simpl; [intuition congruence |].
  rewrite IH. intuition congruence.
Qed.

Lemma is_dict_set k v d : is_dict d -> is_dict (dict_set k v d).
Proof.
  unfold is_dict. induction d as [|[k' v'] d IH]; simpl.
  - intros _. apply NoDup_singleton.
  - intros Hnd. apply NoDup_cons in Hnd as [Hnotin Hnd].
    rewrite list_elem_of_In in Hnotin.
    destruct (decide (k' = k)) as [-> | NE]; simpl.
    + apply NoDup_cons. now rewrite list_elem_of_In.
    + apply NoDup_cons. split; [| now apply IH].
      rewrite list_elem_of_In, keys_dict_set. intuition congruence.
Qed.

Lemma is_dict_update d other : is_dict d -> is_dict (dict_update d other).
Proof.
  unfold dict_update. revert d.
  induction other as [|[k v] other IH]; intros d Hd; simpl; [exact Hd |].
  apply IH. now apply is_dict_set.
Qed.

(** [d.update(other)] binds the keys of [other] to their values there and
    leaves the other keys of [d] as they are. *)
Lemma dict_get_update k d other :
  is_dict other ->
  dict_get k (dict_update d other)
  = match dict_get k other with
    | Some v => Some v
    | None => dict_get k d
    end.
Proof.
  unfold dict_update, is_dict. revert d.
  induction other as [|[k1 v1] other IH]; intros d Hnd; simpl; [reflexivity |].
  apply NoDup_cons in Hnd as [Hnotin Hnd]. rewrite list_elem_of_In in Hnotin.
  simpl in Hnotin. rewrite (IH _ Hnd).
  destruct (decide (k1 = k)) as [-> | NE].
  - rewrite (dict_get_None _ _ Hnotin). apply dict_get_set_eq.
  - destruct (dict_get k other); [reflexivity |]. now apply dict_get_set_ne.
Qed.

(** [OrderedDict] of pairs with distinct keys keeps the pairs as given. *)
Lemma dict_update_fresh d other :
  is_dict (d ++ other) -> dict_update d other = d ++ other.
Proof.
  unfold dict_update, is_dict. revert d.
  induction other as [|[k v] other IH]; intros d Hnd; simpl.
  - now rewrite app_nil_r.
  - assert (Hfresh : ~ In k (map fst d)).
    { rewrite map_app in Hnd. apply NoDup_app in Hnd as (_ & Hdisj & _).
      intros Hin. apply (Hdisj k); [now apply list_elem_of_In |].
      simpl. apply list_elem_of_here. }
    rewrite (dict_set_fresh _ _ _ Hfresh).
    rewrite (IH (d ++ [(k, v)])); rewrite <- app_assoc; [reflexivity | exact Hnd].
Qed.

Lemma OrderedDict_is_dict (pairs : list (K * V)) :
  is_dict pairs -> OrderedDict pairs = pairs.
Proof. intros Hd. unfold OrderedDict. now rewrite dict_update_fresh. Qed.

End DictFacts.

(** ** Sorting *)

Section SortedFacts.
Context {A : Type}.
Variable key : A -> string.

Lemma insert_by_Permutation (x : A) (l : list A) :
  Permutation (insert_by key x l) (x :: l).
Proof.
  induction l as [|y l IH]; simpl; [reflexivity |].
  destruct (str_leb (key x) (key y)); [reflexivity |].
  rewrite IH. apply perm_swap.
Qed.

Lemma sorted_Permutation (l : list A) : Permutation (sorted key l) l.
Proof.
  induction l as [|x l IH]; simpl; [reflexivity |].
  rewrite insert_by_Permutation. now apply perm_skip.
Qed.

Lemma insert_by_StronglySorted (x : A) (l : list A) :
  StronglySorted (key_le key) l -> StronglySorted (key_le key) (insert_by key x l).
Proof.
  induction 1 as [|y l Hsorted IH Hall]; simpl.
  - repeat constructor.
  - destruct (str_leb (key x) (key y)) eqn:Hxy.
    + constructor; [now constructor |].
      constructor; [exact Hxy |].
      eapply Forall_impl; [exact Hall |].
      intros z Hyz. unfold key_le, str_le in *. eapply str_leb_trans; eassumption.
    + constructor; [exact IH |].
      rewrite insert_by_Permutation. constructor; [| exact Hall].
      now apply str_leb_total.
Qed.

Lemma sorted_StronglySorted (l : list A) : StronglySorted (key_le key) (sorted key l).
Proof.
  induction l as [|x l IH]; simpl; [constructor |].
  now apply insert_by_StronglySorted.
Qed.

Lemma StronglySorted_keys (l : list A) :
  StronglySorted (key_le key) l -> StronglySorted str_le (map key l).
Proof.
  induction 1 as [|x l Hsorted IH Hall]; simpl; constructor; [exact IH |].
  now apply Forall_map.
Qed.

End SortedFacts.

(** ** The sort of the loader *)

Lemma res_mapM_Ret {A B : Type} (f : A -> res B) (l : list A) (l' : list B) :
  res_mapM f l = Ret l' <-> Forall2 (fun x y => f x = Ret y) l l'.
Proof.
  revert l'. induction l as [|x l IH]; intros l'; simpl.
  - split; [intros [= <-]; constructor | intros H; inversion H; reflexivity].
  - split.
    + destruct (f x) as [y|e] eqn:Hfx; simpl; [| discriminate].
      destruct (res_mapM f l) as [ys|e] eqn:Hl; simpl; [| discriminate].
      intros [= <-]. constructor; [exact Hfx | now apply IH].
    + intros H. inversion H as [|? y ? ys Hfx Hrest]; subst.
      apply IH in Hrest. now rewrite Hfx, Hrest.
Qed.

Lemma item_name_as_str (item : handler * entry) (s : string) :
  name_of item.2 = Some s
  <-> exists k, item_name item = Ret k /\ as_str k = Ret s.
Proof.
  unfold name_of, item_name. destruct (item.2 !! "name") as [[[]|]|]; simpl;
    split; try discriminate;
    try (intros (k & [= <-] & Hk); simpl in Hk; congruence);
    try (intros (k & Hk & _); discriminate).
  intros [= ->]. eexists. split; reflexivity.
Qed.

Lemma ordered_commands_Ret (t t' : CommandTable) :
  ordered_commands t = Ret t'
  <-> Forall named t /\ t' = OrderedDict (map snd (sorted fst (keyed_of t))).
Proof.
  unfold ordered_commands. split.
  - destruct (res_mapM _ t) as [k1|e] eqn:H1; simpl; [| discriminate].
    destruct (res_mapM _ k1) as [k2|e] eqn:H2; simpl; [| discriminate].
    intros [= <-]. apply res_mapM_Ret in H1, H2.
    assert (Forall named t /\ k2 = keyed_of t) as [Hnamed ->]; [| now split].
    revert k2 H2.
    induction H1 as [|item ki t k1 Hitem Hrest IH]; intros k2 H2;
      inversion H2 as [|? si ? k2' Hsi Hrest2]; subst; [now split |].
    destruct (IH _ Hrest2) as [Hnamed ->].
    destruct (item_name item) as [k|] eqn:Hk; simpl in Hitem; [| discriminate].
    injection Hitem as <-. simpl in Hsi.
    destruct (as_str k) as [s|] eqn:Hs; simpl in Hsi; [| discriminate].
    injection Hsi as <-.
    assert (Hname : name_of item.2 = Some s).
    { apply item_name_as_str. now exists k. }
    split; [constructor; [unfold named; rewrite Hname; eauto | exact Hnamed] |].
    simpl. now rewrite Hname.
  - intros [Hnamed ->].
    assert (exists k1,
      Forall2 (fun x y => (k ← item_name x; Ret (k, x)) = Ret y) t k1
      /\ Forall2 (fun (ki : field * (handler * entry)) y =>
                    (s ← as_str ki.1; Ret (s, ki.2)) = Ret y) k1 (keyed_of t))
      as (k1 & H1 & H2).
    { induction Hnamed as [|item t [s Hs] Hrest (k1 & H1 & H2)].
      - exists []. split; constructor.
      - destruct (proj1 (item_name_as_str item s) Hs) as (k & Hk & Hks).
        exists ((k, item) :: k1). split; constructor; try assumption.
        + now rewrite Hk.
        + simpl. now rewrite Hks, Hs. }
    apply res_mapM_Ret in H1, H2. now rewrite H1; simpl; rewrite H2.
Qed.

Lemma map_snd_keyed_of (t : CommandTable) : map snd (keyed_of t) = t.
Proof.
  unfold keyed_of. rewrite map_map. simpl. apply map_id.
Qed.

Lemma sorted_table_Permutation (t : CommandTable) :
  Permutation (map snd (sorted fst (keyed_of t))) t.
Proof.
  rewrite <- (map_snd_keyed_of t) at 2.
  apply Permutation_map, sorted_Permutation.
Qed.

Lemma names_keyed (l : list (string * (handler * entry))) :
  Forall (fun si => name_of si.2.2 = Some si.1) l ->
  names (map snd l) = Some (map fst l).
Proof.
  unfold names. induction 1 as [|si l Hsi Hrest IH]; simpl; [reflexivity |].
  rewrite Hsi. simpl. now rewrite IH.
Qed.

Lemma keyed_of_names (t : CommandTable) :
  Forall named t -> Forall (fun si => name_of si.2.2 = Some si.1) (keyed_of t).
Proof.
  unfold keyed_of. intros Hnamed. apply Forall_map.
  eapply Forall_impl; [exact Hnamed |].
  intros item [s Hs]. simpl. now rewrite Hs.
Qed.

(** What the sort returns, when it returns: the items of the table, each
    once, in ascending order of their names. *)
Lemma ordered_commands_sorted (t t' : CommandTable) :
  is_dict t ->
  ordered_commands t = Ret t' ->
  Permutation t' t
  /\ exists ns, names t' = Some ns /\ StronglySorted str_le ns.
Proof.
  intros Hd Hret. apply ordered_commands_Ret in Hret as [Hnamed ->].
  rewrite OrderedDict_is_dict.
  - split; [apply sorted_table_Permutation |].
    exists (map fst (sorted fst (keyed_of t))). split.
    + apply names_keyed.
      eapply Permutation_Forall; [| apply keyed_of_names, Hnamed].
      symmetry. apply sorted_Permutation.
    + apply StronglySorted_keys, sorted_StronglySorted.
  - unfold is_dict in *. now rewrite sorted_table_Permutation.
Qed.

(** The sort returns as soon as every entry has a name. *)
Lemma ordered_commands_total (t : CommandTable) :
  Forall named t -> exists t', ordered_commands t = Ret t'.
Proof.
  intros Hnamed. eexists. apply ordered_commands_Ret. split; [exact Hnamed | reflexivity].
Qed.

(** ** The loader *)

Section LoaderFacts.
Variable import_module : string -> res module.
Variable installed : list string.

(** What importing a module's table yields does not depend on the imports
    made before; the import is recorded. *)
Lemma _get_command_table_imports (name : string) (imports : list string) :
  _get_command_table import_module name imports
  = (fst (_get_command_table import_module name []), imports ++ [full_name name]).
Proof.
  unfold _get_command_table.
  destruct (import_module (full_name name)) as [m|e]; [| reflexivity].
  destruct (command_table m); reflexivity.
Qed.

Lemma load_all_fst (mods : list string) (acc : CommandTable) (i i' : list string) :
  fst (load_all import_module mods acc i) = fst (load_all import_module mods acc i').
Proof.
  revert acc i i'. induction mods as [|name mods IH]; intros acc i i'; simpl;
    [reflexivity |].
  rewrite (_get_command_table_imports name i), (_get_command_table_imports name i').
  destruct (fst (_get_command_table import_module name [])); [apply IH | reflexivity].
Qed.

Lemma load_all_is_dict (mods : list string) (acc t : CommandTable) (i i' : list string) :
  is_dict acc ->
  load_all import_module mods acc i = (Ret t, i') ->
  is_dict t.
Proof.
  revert acc i. induction mods as [|name mods IH]; intros acc i Hacc; simpl.
  - now intros [= <- _].
  - destruct (_get_command_table import_module name i) as [[t1|e] i1]; [| discriminate].
    apply IH. now apply is_dict_update.
Qed.

(** The first module of the list whose table cannot be had ends the load. *)
Lemma load_all_raises (mods : list string) (acc : CommandTable) (i : list string)
    (bad : string) (e : exn) :
  In bad mods ->
  fst (_get_command_table import_module bad []) = Raise e ->
  exists before bad' after e',
    mods = before ++ bad' :: after
    /\ Forall (fun name => exists t,
                 fst (_get_command_table import_module name []) = Ret t) before
    /\ fst (_get_command_table import_module bad' []) = Raise e'
    /\ fst (load_all import_module mods acc i) = Raise e'.
Proof.
  revert acc i. induction mods as [|name mods IH]; intros acc i Hin Hbad; [contradiction |].
  simpl. rewrite (_get_command_table_imports name i).
  destruct (fst (_get_command_table import_module name [])) as [t|e1] eqn:Hname.
  - destruct Hin as [-> | Hin]; [congruence |].
    destruct (IH (dict_update acc t) (i ++ [full_name name]) Hin Hbad)
      as (before & bad' & after & e' & -> & Hbefore & Hbad' & Hload).
    exists (name :: before), bad', after, e'.
    repeat split; [| exact Hbad' | exact Hload].
    constructor; [now exists t | exact Hbefore].
  - exists [], name, mods, e1. repeat split; [constructor | exact Hname].
Qed.

(** The load of modules that all import is the fold of [update]. *)
Lemma load_all_Ret (mods : list string) (tables : list CommandTable)
    (acc : CommandTable) (i : list string) :
  Forall2 (fun name t => fst (_get_command_table import_module name []) = Ret t)
          mods tables ->
  load_all import_module mods acc i
  = (Ret (fold_left dict_update tables acc), i ++ map full_name mods).
Proof.
  intros Hall. revert acc i.
  induction Hall as [|name t mods tables Hname Hrest IH]; intros acc i; simpl.
  - now rewrite app_nil_r.
  - rewrite (_get_command_table_imports name i), Hname, IH.
    now rewrite <- app_assoc.
Qed.

Lemma load_named_falls_back (module_name : option string) (imports : list string) :
  falls_back import_module module_name ->
  fst (load_named import_module module_name imports) = Ret None.
Proof.
  unfold falls_back, load_named. destruct (truthy module_name) as [name|]; [| reflexivity].
  intros (e & Himport & Hcaught). unfold _get_command_table.
  now rewrite Himport, Hcaught.
Qed.

Lemma get_command_table_falls_back (module_name : option string) (imports : list string) :
  falls_back import_module module_name ->
  fst (get_command_table import_module installed module_name imports)
  = t ← fst (load_all import_module installed [] []); ordered_commands t.
Proof.
  intros Hfb. unfold get_command_table.
  pose proof (load_named_falls_back module_name imports Hfb) as Hnamed.
  destruct (load_named import_module module_name imports) as [r i1].
  simpl in Hnamed. subst r.
  rewrite (load_all_fst installed [] [] i1).
  destruct (load_all import_module installed [] i1) as [[t|e] i2]; reflexivity.
Qed.

End LoaderFacts.

Lemma In_dict_set {K V : Type} `{EqDecision K} (k k0 : K) (v v0 : V) (d : list (K * V)) :
  In (k, v) (dict_set k0 v0 d) -> (k, v) = (k0, v0) \/ In (k, v) d.
Proof.
  induction d as [|[k1 v1] d IH]; simpl; [intuition |].
  destruct (decide (k1 = k0)); simpl; intuition.
Qed.

Lemma In_dict_update {K V : Type} `{EqDecision K} (x : K * V) (d other : list (K * V)) :
  In x (dict_update d other) -> In x d \/ In x other.
Proof.
  unfold dict_update. revert d.
  induction other as [|[k0 v0] other IH]; intros d; simpl; [now left |].
  intros Hin. destruct (IH _ Hin) as [Hd | Ho]; [| now right; right].
  destruct x as [k v]. apply In_dict_set in Hd as [-> | Hd]; auto.
Qed.

(** The merge of dictionaries is a dictionary whose items come from them,
    and a key is bound as the last of them binds it. *)
Lemma merge_is_dict (tables : list CommandTable) (acc : CommandTable) :
  is_dict acc -> is_dict (fold_left dict_update tables acc).
Proof.
  revert acc. induction tables as [|t tables IH]; intros acc Hacc; simpl; [exact Hacc |].
  apply IH. now apply is_dict_update.
Qed.

Lemma merge_named (tables : list CommandTable) (acc : CommandTable) :
  Forall named acc ->
  Forall (Forall named) tables ->
  Forall named (fold_left dict_update tables acc).
Proof.
  intros Hacc Hall. revert acc Hacc.
  induction Hall as [|t tables Ht Hrest IH]; intros acc Hacc; simpl; [exact Hacc |].
  apply IH. rewrite Forall_forall in *. intros x Hx.
  apply list_elem_of_In, In_dict_update in Hx as [Hx | Hx];
    [apply Hacc | apply Ht]; now apply list_elem_of_In.
Qed.

Lemma merge_lookup (h : handler) (tables : list CommandTable) (acc : CommandTable) :
  Forall is_dict tables ->
  dict_get h (fold_left dict_update tables acc)
  = fold_left (fun found t => match dict_get h t with Some e => Some e | None => found end)
              tables (dict_get h acc).
Proof.
  intros Hall. revert acc.
  induction Hall as [|t tables Ht Hrest IH]; intros acc; simpl; [reflexivity |].
  now rewrite IH, dict_get_update.
Qed.

(** C2: whatever the hint and the modules, the table that [get_command_table]
    returns lists its entries in ascending order of their names. *)
Theorem C2_table_sorted_by_name
    (import_module : string -> res module) (installed : list string)
    (module_name : option string) (imports imports' : list string) (t : CommandTable) :
  (forall name m table,
     import_module name = Ret m -> command_table m = Some table -> is_dict table) ->
  get_command_table import_module installed module_name imports = (Ret t, imports') ->
  exists ns, names t = Some ns /\ StronglySorted str_le ns.
Proof.
  intros Hdicts. unfold get_command_table, load_named.
  destruct (truthy module_name) as [name|].
  - unfold _get_command_table at 1.
    destruct (import_module (full_name name)) as [m|e] eqn:Himport.
    + destruct (command_table m) as [table|] eqn:Htable; simpl; [| discriminate].
      intros [= Hsort _]. eapply ordered_commands_sorted; [| exact Hsort].
      eapply Hdicts; eassumption.
    + destruct (is_ImportError e); [| discriminate].
      destruct (load_all _ _ _ _) as [[merged|e'] i2] eqn:Hload; [| discriminate].
      intros [= Hsort _]. eapply ordered_commands_sorted; [| exact Hsort].
      eapply load_all_is_dict; [| exact Hload]. constructor.
  - destruct (load_all _ _ _ _) as [[merged|e'] i2] eqn:Hload; [| discriminate].
    intros [= Hsort _]. eapply ordered_commands_sorted; [| exact Hsort].
    eapply load_all_is_dict; [| exact Hload]. constructor.
Qed.

Lemma import_example_dicts (name : string) (m : module) (table : CommandTable) :
  import_example name = Ret m -> command_table m = Some table -> is_dict table.
Proof.
  unfold import_example. repeat case_decide; intros [= <-]; simpl; intros [= <-];
    by_evaluation.
Qed.

Lemma C2_table_sorted_by_name_witness :
  exists ns,
    names [(3, named_entry "a b" "from B"); (1, named_entry "x y" "from A");
           (2, named_entry "x y" "from B")] = Some ns
    /\ StronglySorted str_le ns.
Proof.
  apply (C2_table_sorted_by_name import_example ["A"; "B"] None []
           [full_name "A"; full_name "B"]).
  - exact import_example_dicts.
  - by_evaluation.
Defined.





(** C6: on the path that loads every installed module, a module whose import
    raises makes [get_command_table] raise and return no table: the outcome is
    the exception of the first module of the list that fails, those before it
    having been imported. *)
Theorem C6_full_load_fails_fast
    (import_module : string -> res module) (installed : list string)
    (module_name : option string) (imports : list string) (bad : string) (e : exn) :
  falls_back import_module module_name ->
  In bad installed ->
  import_module (full_name bad) = Raise e ->
  exists before bad' after e',
    installed = before ++ bad' :: after
    /\ Forall (fun name => exists t,
                 fst (_get_command_table import_module name []) = Ret t) before
    /\ fst (_get_command_table import_module bad' []) = Raise e'
    /\ fst (get_command_table import_module installed module_name imports) = Raise e'.
Proof.
  intros Hfb Hin Himport.
  assert (Hbad : fst (_get_command_table import_module bad []) = Raise e).
  { unfold _get_command_table. now rewrite Himport. }
  destruct (load_all_raises import_module installed [] [] bad e Hin Hbad)
    as (before & bad' & after & e' & Hsplit & Hbefore & Hbad' & Hload).
  exists before, bad', after, e'. repeat split; try assumption.
  rewrite get_command_table_falls_back; [| exact Hfb]. now rewrite Hload.
Qed.

Lemma C6_full_load_fails_fast_witness :
  exists before bad' after e',
    ["A"; "broken"; "B"] = before ++ bad' :: after
    /\ Forall (fun name => exists t,
                 fst (_get_command_table import_example name []) = Ret t) before
    /\ fst (_get_command_table import_example bad' []) = Raise e'
    /\ fst (get_command_table import_example ["A"; "broken"; "B"] None []) = Raise e'.
Proof.
  apply (C6_full_load_fails_fast import_example ["A"; "broken"; "B"] None [] "broken"
           (OtherError "SyntaxError")).
  - exact I.
  - simpl. tauto.
  - by_evaluation.
Defined.

(** C7: a hint that names a module with a command table makes
    [get_command_table] import that module and no other, and sort that
    module's table and no other: the result is the module's items, each once,
    in ascending order of their names. *)
Theorem C7_named_module_alone
    (import_module : string -> res module) (installed : list string)
    (name : string) (m : module) (table : CommandTable) (imports : list string) :
  name <> EmptyString ->
  import_module (full_name name) = Ret m ->
  command_table m = Some table ->
  is_dict table ->
  get_command_table import_module installed (Some name) imports
  = (ordered_commands table, imports ++ [full_name name])
  /\ (Forall named table ->
      exists t, ordered_commands table = Ret t
                /\ Permutation t table
                /\ exists ns, names t = Some ns /\ StronglySorted str_le ns).
Proof.
  intros Hname Himport Htable Hdict. split.
  - unfold get_command_table, load_named.
    replace (truthy (Some name)) with (Some name)
      by (destruct name; [congruence | reflexivity]).
    unfold _get_command_table. now rewrite Himport, Htable.
  - intros Hnamed. destruct (ordered_commands_total table Hnamed) as [t Ht].
    exists t. split; [exact Ht |]. now apply ordered_commands_sorted.
Qed.

Lemma C7_named_module_alone_witness :
  get_command_table import_example ["A"; "B"] (Some "B") []
  = (ordered_commands table_B, [] ++ [full_name "B"])
  /\ (Forall named table_B ->
      exists t, ordered_commands table_B = Ret t
                /\ Permutation t table_B
                /\ exists ns, names t = Some ns /\ StronglySorted str_le ns).
Proof.
  apply (C7_named_module_alone import_example ["A"; "B"] "B"
           {| command_table := Some table_B |} table_B []).
  - discriminate.
  - vm_compute. reflexivity.
  - reflexivity.
  - by_evaluation.
Defined.

(** C10: when the table of the named module cannot be had for another reason
    than an [ImportError] (the module has no [command_table], or its import
    raises something else), [get_command_table] raises that exception after
    this one import: it does not go on to load the installed modules.  Only
    an [ImportError] makes it go on. *)
Theorem C10_other_errors_propagate
    (import_module : string -> res module) (installed : list string)
    (name : string) (imports : list string) :
  name <> EmptyString ->
  (forall e,
     fst (_get_command_table import_module name imports) = Raise e ->
     is_ImportError e = false ->
     get_command_table import_module installed (Some name) imports
     = (Raise e, imports ++ [full_name name]))
  /\ (forall m,
       import_module (full_name name) = Ret m ->
       command_table m = None ->
       get_command_table import_module installed (Some name) imports
       = (Raise (AttributeError "command_table"), imports ++ [full_name name]))
  /\ (fst (load_named import_module (Some name) imports) = Ret None ->
      exists e, import_module (full_name name) = Raise e /\ is_ImportError e = true).
Proof.
  intros Hname. unfold get_command_table, load_named.
  replace (truthy (Some name)) with (Some name)
    by (destruct name; [congruence | reflexivity]).
  rewrite _get_command_table_imports. simpl. repeat split.
  - intros e Hraise Hother. now rewrite Hraise, Hother.
  - intros m Himport Htable. unfold _get_command_table. now rewrite Himport, Htable.
  - unfold _get_command_table.
    destruct (import_module (full_name name)) as [m|e]; simpl.
    + destruct (command_table m); simpl; discriminate.
    + destruct (is_ImportError e) eqn:Hcaught; simpl; [| discriminate].
      intros _. now exists e.
Qed.

Lemma C10_other_errors_propagate_witness :
  get_command_table import_example ["A"; "B"] (Some "bare") []
  = (Raise (AttributeError "command_table"), [] ++ [full_name "bare"])
  /\ get_command_table import_example ["A"; "B"] (Some "broken") []
     = (Raise (OtherError "SyntaxError"), [] ++ [full_name "broken"]).
Proof.
  split.
  - apply (C10_other_errors_propagate import_example ["A"; "B"] "bare" []);
      [discriminate | vm_compute; reflexivity | reflexivity].
  - apply (C10_other_errors_propagate import_example ["A"; "B"] "broken" []);
      [discriminate | vm_compute; reflexivity | reflexivity].
Defined.

(** C1, on the code: the table stays keyed by handler.  Modules A and B both
    register the name "x y", under two handlers; after the merge in the order
    A, B the table holds both entries, A's before B's, and its names in the
    order of iteration are "a b", "x y", "x y". *)
Lemma C1_same_name_entries_both_kept :
  get_command_table import_example ["A"; "B"] None []
  = (Ret [(3, named_entry "a b" "from B"); (1, named_entry "x y" "from A");
          (2, named_entry "x y" "from B")],
     [full_name "A"; full_name "B"])
  /\ names [(3, named_entry "a b" "from B"); (1, named_entry "x y" "from A");
            (2, named_entry "x y" "from B")]
     = Some ["a b"; "x y"; "x y"]
  /\ Some ["a b"; "x y"; "x y"] <> Some ["a b"; "x y"]
  /\ dict_get 1 [(3, named_entry "a b" "from B"); (1, named_entry "x y" "from A");
                 (2, named_entry "x y" "from B")]
     = Some (named_entry "x y" "from A").
Proof.
  split; [by_evaluation |]. split; [by_evaluation |]. split; [discriminate | by_evaluation].
Qed.

(** C1, amended: on the path that loads every installed module, the table
    returned is keyed by handler; each handler is bound to the entry of the
    last module, in the order of the merge, that registers this handler, so
    that entries of different handlers are all kept, whatever their names;
    the order of iteration is the ascending order of the names. *)
Theorem C1_merge_last_wins_by_handler
    (import_module : string -> res module) (installed : list string)
    (tables : list CommandTable)
    (module_name : option string) (imports : list string) :
  falls_back import_module module_name ->
  Forall2 (exports import_module) installed tables ->
  Forall is_dict tables ->
  Forall (Forall named) tables ->
  exists t,
    fst (get_command_table import_module installed module_name imports) = Ret t
    /\ is_dict t
    /\ (forall h, dict_get h t = last_registered h tables)
    /\ exists ns, names t = Some ns /\ StronglySorted str_le ns.
Proof.
  intros Hfb Hexports Hdicts Hnamed.
  assert (Hload : fst (load_all import_module installed [] [])
                  = Ret (fold_left dict_update tables [])).
  { rewrite (load_all_Ret import_module installed tables); [reflexivity |].
    eapply Forall2_impl; [exact Hexports |].
    intros name t (m & Himport & Htable). unfold _get_command_table.
    now rewrite Himport, Htable. }
  assert (Hmerged : is_dict (fold_left dict_update tables ([] : CommandTable))).
  { apply merge_is_dict. constructor. }
  destruct (ordered_commands_total (fold_left dict_update tables []))
    as [t Ht]; [apply merge_named; [constructor | exact Hnamed] |].
  destruct (ordered_commands_sorted _ _ Hmerged Ht) as [Hperm Hsorted].
  exists t. rewrite get_command_table_falls_back, Hload; [| exact Hfb].
  repeat split; [exact Ht | | | exact Hsorted].
  - unfold is_dict in *. now rewrite Hperm.
  - intros h. rewrite <- (dict_get_Permutation h _ _ (Permutation_sym Hperm) Hmerged).
    now rewrite merge_lookup.
Qed.

Lemma C1_merge_last_wins_by_handler_witness :
  exists t,
    fst (get_command_table import_example ["A"; "B"] None []) = Ret t
    /\ is_dict t
    /\ (forall h, dict_get h t = last_registered h [table_A; table_B])
    /\ exists ns, names t = Some ns /\ StronglySorted str_le ns.
Proof.
  apply (C1_merge_last_wins_by_handler import_example ["A"; "B"] [table_A; table_B] None []).
  - exact I.
  - constructor; [exists {| command_table := Some table_A |}; now split |].
    constructor; [exists {| command_table := Some table_B |}; now split |].
    constructor.
  - repeat constructor; by_evaluation.
  - repeat constructor; by_evaluation.
Defined.

(** ** The decorators *)

Section DecoratorFacts.
Implicit Types (a : annotation) (e : entry) (f : handler) (t : CommandTable).

Lemma dict_set_set {K V : Type} `{EqDecision K} (k : K) (v v' : V) (d : list (K * V)) :
  dict_set k v (dict_set k v' d) = dict_set k v d.
Proof.
  induction d as [|[k1 v1] d IH]; simpl.
  - destruct (decide (k = k)); congruence.
  - destruct (decide (k1 = k)) as [-> | NE]; simpl.
    + destruct (decide (k = k)); congruence.
    + destruct (decide (k1 = k)); [congruence | now rewrite IH].
Qed.

Lemma getitem_spec f t :
  exists t', getitem f t = (entry_of f t, t')
             /\ forall e, dict_set f e t' = dict_set f e t.
Proof.
  unfold getitem, entry_of. destruct (dict_get f t) as [e0|]; simpl.
  - now exists t.
  - eexists. split; [reflexivity |]. intros e. apply dict_set_set.
Qed.

Lemma entry_of_set f e t : entry_of f (dict_set f e t) = e.
Proof. unfold entry_of. now rewrite dict_get_set_eq. Qed.

Lemma setfield_spec f k (v : field) t :
  setfield f k v t = dict_set f (<[k := v]> (entry_of f t)) t.
Proof.
  unfold setfield. destruct (getitem_spec f t) as (t' & -> & Hset). apply Hset.
Qed.

(** A decorator that does not raise returns the function it was given and
    rebinds its entry. *)
Lemma decorate_spec a f t e' :
  annotate a (entry_of f t) = Ret e' ->
  decorate a f t = (Ret f, dict_set f e' t).
Proof.
  destruct a as [name kwargs | text | help_file | name kwargs]; simpl.
  - intros [= <-]. unfold command. rewrite setfield_spec.
    destruct (getitem_spec f (dict_set f (<["name" := FVal (PStr name)]> (entry_of f t)) t))
      as (t' & -> & Hset).
    rewrite Hset, entry_of_set, dict_set_set. do 2 f_equal.
    rewrite insert_union_singleton_l. apply (assoc_L (∪)).
  - intros [= <-]. unfold description. rewrite setfield_spec.
    now rewrite insert_union_singleton_l.
  - intros [= <-]. unfold help. rewrite setfield_spec.
    now rewrite insert_union_singleton_l.
  - unfold option_. destruct (getitem_spec f t) as (t' & -> & Hset).
    destruct (entry_of f t !! "arguments") as [[v | l]|]; try discriminate.
    intros [= <-]. now rewrite Hset.
Qed.

Lemma decorate_returns_handler a f t f' t' :
  decorate a f t = (Ret f', t') -> f' = f.
Proof.
  destruct a as [name kwargs | text | help_file | name kwargs]; simpl.
  - unfold command. destruct (getitem _ _). now intros [= <- _].
  - unfold description. now intros [= <- _].
  - unfold help. now intros [= <- _].
  - unfold option_. destruct (getitem f t) as [e t1].
    destruct (e !! "arguments") as [[v | l]|]; try discriminate. now intros [= <- _].
Qed.

Lemma stack_spec anns f t e' :
  annotate_all anns (entry_of f t) = Ret e' ->
  stack anns f t = (Ret f, match anns with [] => t | _ => dict_set f e' t end).
Proof.
  revert t. induction anns as [|a anns IH]; intros t; simpl; [reflexivity |].
  destruct (annotate a (entry_of f t)) as [e1|] eqn:Ha; simpl; [| discriminate].
  intros Hrest. rewrite (decorate_spec a f t e1 Ha).
  rewrite (IH (dict_set f e1 t)); [| now rewrite entry_of_set].
  destruct anns; [| now rewrite dict_set_set].
  simpl in Hrest. now injection Hrest as <-.
Qed.

(** Outside of the fields it sets, a write leaves an entry as it is. *)
Lemma apply_writes_ext anns e e' (k : string) :
  e !! k = e' !! k -> apply_writes anns e !! k = apply_writes anns e' !! k.
Proof.
  unfold apply_writes. revert e e'.
  induction anns as [|a anns IH]; intros e e' Hk; simpl; [exact Hk |].
  apply IH. rewrite !lookup_union. now rewrite Hk.
Qed.

Lemma apply_writes_untouched anns e (k : string) :
  Forall (fun a => writes a !! k = None) anns ->
  apply_writes anns e !! k = e !! k.
Proof.
  unfold apply_writes. intros Hall. revert e.
  induction Hall as [|a anns Ha Hrest IH]; intros e; simpl; [reflexivity |].
  rewrite IH. now rewrite lookup_union_r.
Qed.

(** When no annotation sets "arguments", the entry after the stack has the
    fields written and, under "arguments", the specs in the order of the
    [option] calls. *)
Lemma annotate_all_spec anns e (l0 : list argspec) :
  Forall (fun a => writes a !! "arguments" = None) anns ->
  e !! "arguments" = Some (FArgs l0) ->
  annotate_all anns e
  = Ret (<["arguments" := FArgs (l0 ++ specs anns)]> (apply_writes anns e)).
Proof.
  intros Hargs. revert e l0.
  induction Hargs as [|a anns Ha Hrest IH]; intros e l0 He; simpl.
  - rewrite app_nil_r. now rewrite insert_id.
  - assert (Hsetter : is_option a = false ->
              annotate a e = Ret (writes a ∪ e) /\ spec_of a = []).
    { destruct a; simpl; intros; try discriminate; now split. }
    destruct (is_option a) eqn:Hopt.
    + destruct a as [| | | name kwargs]; try discriminate. simpl. rewrite He. simpl.
      rewrite (IH _ (l0 ++ [<["name" := PStr name]> kwargs]));
        [| now rewrite lookup_insert_eq].
      rewrite <- app_assoc. simpl. f_equal. unfold apply_writes. simpl.
      rewrite (left_id_L ∅ (∪)). apply map_eq. intros k.
      destruct (decide (k = "arguments")) as [-> | NE];
        [now rewrite !lookup_insert_eq |].
      rewrite !lookup_insert_ne by congruence.
      apply apply_writes_ext. now rewrite lookup_insert_ne by congruence.
    + destruct (Hsetter eq_refl) as [-> ->]. simpl.
      apply IH. now rewrite lookup_union_r.
Qed.

Lemma apply_writes_setters anns e :
  apply_writes anns e = apply_writes (setters anns) e.
Proof.
  unfold apply_writes, setters. revert e.
  induction anns as [|a anns IH]; intros e; simpl; [reflexivity |].
  destruct a; simpl; rewrite ?IH; try reflexivity.
  now rewrite (left_id_L ∅ (∪)).
Qed.

Lemma specs_options anns : specs anns = specs (options anns).
Proof.
  unfold specs, options. induction anns as [|a anns IH]; simpl; [reflexivity |].
  destruct a; simpl; now rewrite IH.
Qed.

Lemma no_conflict_Permutation (l l' : list annotation) :
  Permutation l l' -> no_conflict l -> no_conflict l'.
Proof.
  induction 1 as [| x l l' Hperm IH | x y l | l l1 l2 H1 IH1 H2 IH2]; simpl.
  - trivial.
  - intros [Hx Hl]. split; [now rewrite <- Hperm | now apply IH].
  - intros [Hy [Hx Hl]]. apply Forall_cons in Hy as [Hyx Hy].
    repeat split; try assumption. constructor; [now symmetry | assumption].
  - auto.
Qed.

(** Writes to different fields may be made in any order. *)
Lemma apply_writes_Permutation (l l' : list annotation) e :
  Permutation l l' -> no_conflict l -> apply_writes l e = apply_writes l' e.
Proof.
  unfold apply_writes. intros Hperm. revert e.
  induction Hperm as [| x l l' Hperm IH | x y l | l l1 l2 H1 IH1 H2 IH2];
    intros e; simpl.
  - reflexivity.
  - intros [_ Hl]. now apply IH.
  - intros [Hy _]. apply Forall_cons in Hy as [Hyx _]. f_equal.
    rewrite !(assoc_L (∪)). f_equal. apply map_union_comm. now symmetry.
  - intros Hl. rewrite IH1 by assumption. apply IH2.
    now apply (no_conflict_Permutation l l1).
Qed.

(** A field that one of the annotations sets has the value set, as no
    other annotation sets it. *)
Lemma apply_writes_lookup (l : list annotation) a e (k : string) (v : field) :
  no_conflict l -> In a l -> writes a !! k = Some v ->
  apply_writes l e !! k = Some v.
Proof.
  intros Hnc Hin Hk. apply in_split in Hin as (l1 & l2 & ->).
  rewrite (apply_writes_Permutation _ ((l1 ++ l2) ++ [a])); [| | exact Hnc].
  - unfold apply_writes. rewrite fold_left_app. simpl.
    now apply lookup_union_Some_l.
  - rewrite <- app_assoc. apply Permutation_app_head.
    change (a :: l2) with ([a] ++ l2). apply Permutation_app_comm.
Qed.

End DecoratorFacts.

Lemma setters_or_options (anns : list annotation) :
  setters anns = [] -> options anns = [] -> anns = [].
Proof.
  unfold setters, options. destruct anns as [|a anns]; [reflexivity |].
  simpl. destruct a; simpl; discriminate.
Qed.

Lemma In_setters (a : annotation) (anns : list annotation) (k : string) (v : field) :
  In a anns -> writes a !! k = Some v -> In a (setters anns).
Proof.
  intros Hin Hk. unfold setters. apply list_elem_of_In, list_elem_of_filter.
  split; [| now apply list_elem_of_In].
  destruct a; try reflexivity. simpl in Hk. now rewrite lookup_empty in Hk.
Qed.

Lemma arguments_kept (anns anns' : list annotation) :
  Permutation (setters anns) (setters anns') ->
  Forall (fun a => writes a !! "arguments" = None) anns ->
  Forall (fun a => writes a !! "arguments" = None) anns'.
Proof.
  intros Hperm Hall. rewrite Forall_forall in *. intros a Ha.
  destruct (writes a !! "arguments") as [v|] eqn:Hk; [| reflexivity].
  apply list_elem_of_In in Ha.
  pose proof (In_setters a anns' _ _ Ha Hk) as Hin.
  apply (Permutation_in _ (Permutation_sym Hperm)) in Hin.
  unfold setters in Hin. apply list_elem_of_In, list_elem_of_filter in Hin as [_ Hin].
  rewrite <- Hk. now apply Hall.
Qed.

(** C8, on the code: the keywords of [command] are written over the entry
    ([self[func].update(kwargs)]).  A [command] that passes [description=]
    and a [description] annotation give one description or the other,
    according to their order; a [command] that passes [arguments=] discards
    the specs of the [option] calls made before it. *)
Lemma C8_command_keywords_override :
  Permutation [ACommand "x y" {[ "description" := FVal (PStr "A") ]}; ADescription "B"]
              [ADescription "B"; ACommand "x y" {[ "description" := FVal (PStr "A") ]}]
  /\ (e ← annotated [ACommand "x y" {[ "description" := FVal (PStr "A") ]};
                     ADescription "B"] 1;
      e !! "description") = Some (FVal (PStr "B"))
  /\ (e ← annotated [ADescription "B";
                     ACommand "x y" {[ "description" := FVal (PStr "A") ]}] 1;
      e !! "description") = Some (FVal (PStr "A"))
  /\ (e ← annotated [AOption "--name -n" ∅;
                     ACommand "x y" {[ "arguments" := FArgs [] ]}] 1;
      e !! "arguments") = Some (FArgs [])
  /\ specs [AOption "--name -n" ∅; ACommand "x y" {[ "arguments" := FArgs [] ]}]
     = [ {[ "name" := PStr "--name -n" ]} ].
Proof.
  split; [apply perm_swap |]. repeat split; by_evaluation.
Qed.

(** C8, amended: take a function that has no entry yet and a stack of
    annotations, not empty, in which no [command] passes [arguments=] and no
    two of the [command], [description] and [help] annotations set the same
    field.  Every decorator returns the function it is given; the entry has
    each field the annotations set, with the value set; its "arguments" are
    the specs of the [option] calls in the order of the calls; and a stack
    with the same [option] calls in the same order and the other annotations
    permuted leaves the same table. *)
Theorem C8_annotations_compose
    (func : handler) (self : CommandTable) (anns : list annotation) :
  dict_get func self = None ->
  anns <> [] ->
  Forall (fun a => writes a !! "arguments" = None) anns ->
  no_conflict (setters anns) ->
  (forall a g s g' s', decorate a g s = (Ret g', s') -> g' = g)
  /\ exists e,
       stack anns func self = (Ret func, dict_set func e self)
       /\ e !! "arguments" = Some (FArgs (specs anns))
       /\ (forall a k v, In a anns -> writes a !! k = Some v -> e !! k = Some v)
       /\ (forall anns',
             Permutation (setters anns) (setters anns') ->
             options anns' = options anns ->
             stack anns' func self = (Ret func, dict_set func e self)).
Proof.
  intros Hfresh Hne Hargs Hnc. split; [exact decorate_returns_handler |].
  assert (Hentry : entry_of func self = default_entry).
  { unfold entry_of. now rewrite Hfresh. }
  assert (Hdefault : default_entry !! "arguments" = Some (FArgs [])).
  { apply lookup_singleton_eq. }
  exists (<["arguments" := FArgs (specs anns)]> (apply_writes anns default_entry)).
  repeat split.
  - rewrite (stack_spec anns func self
               (<["arguments" := FArgs (specs anns)]> (apply_writes anns default_entry))).
    + destruct anns; [congruence | reflexivity].
    + rewrite Hentry. now rewrite (annotate_all_spec anns default_entry []).
  - apply lookup_insert_eq.
  - intros a k v Hin Hk.
    assert (k <> "arguments").
    { intros ->. rewrite Forall_forall in Hargs.
      rewrite (Hargs a) in Hk; [discriminate | now apply list_elem_of_In]. }
    rewrite lookup_insert_ne by congruence. rewrite apply_writes_setters.
    eapply apply_writes_lookup; [exact Hnc | | exact Hk].
    eapply In_setters; eassumption.
  - intros anns' Hperm Hopts.
    rewrite (stack_spec anns' func self
               (<["arguments" := FArgs (specs anns)]> (apply_writes anns default_entry))).
    + destruct anns' as [|a' rest]; [| reflexivity].
      exfalso. apply Hne, setters_or_options.
      * now apply Permutation_nil, Permutation_sym.
      * now rewrite <- Hopts.
    + rewrite Hentry.
      rewrite (annotate_all_spec anns' default_entry []);
        [| now apply (arguments_kept anns) | exact Hdefault].
      simpl. rewrite (specs_options anns'), Hopts, <- (specs_options anns).
      rewrite (apply_writes_setters anns'), (apply_writes_setters anns).
      now rewrite (apply_writes_Permutation _ _ _ Hperm Hnc).
Qed.

Lemma C8_annotations_compose_witness :
  (forall a g s g' s', decorate a g s = (Ret g', s') -> g' = g)
  /\ exists e,
       stack [AOption "--name -n" ∅; ACommand "x y" ∅; ADescription "d";
              AOption "--location -l" {[ "required" := PBool true ]}; AHelp "h"]
             1 []
       = (Ret 1, dict_set 1 e [])
       /\ e !! "arguments"
          = Some (FArgs (specs [AOption "--name -n" ∅; ACommand "x y" ∅; ADescription "d";
                                AOption "--location -l" {[ "required" := PBool true ]};
                                AHelp "h"]))
       /\ (forall a k v,
             In a [AOption "--name -n" ∅; ACommand "x y" ∅; ADescription "d";
                   AOption "--location -l" {[ "required" := PBool true ]}; AHelp "h"] ->
             writes a !! k = Some v -> e !! k = Some v)
       /\ (forall anns',
             Permutation
               (setters [AOption "--name -n" ∅; ACommand "x y" ∅; ADescription "d";
                         AOption "--location -l" {[ "required" := PBool true ]}; AHelp "h"])
               (setters anns') ->
             options anns'
             = options [AOption "--name -n" ∅; ACommand "x y" ∅; ADescription "d";
                        AOption "--location -l" {[ "required" := PBool true ]}; AHelp "h"] ->
             stack anns' 1 [] = (Ret 1, dict_set 1 e [])).
Proof.
  apply (C8_annotations_compose 1 []
           [AOption "--name -n" ∅; ACommand "x y" ∅; ADescription "d";
            AOption "--location -l" {[ "required" := PBool true ]}; AHelp "h"]).
  - reflexivity.
  - discriminate.
  - repeat constructor.
  - simpl. repeat split; repeat constructor; by_evaluation.
Defined.

(** * Further properties of the code *)

(** ** The monitor: the events, one by one *)

Section MonitorTrace.
Context {St T : Type}.
Variable time_sleep : Z -> res unit.
Variable self : LongRunningOperation.
Variable poller : Poller St T.

Lemma pending_poll (n : nat) (ps ps1 : St) (fuel : nat) :
  pending_for poller n ps ps1 ->
  (0 < n -> time_sleep (poll_interval_ms self) = Ret tt) ->
  poll time_sleep self poller (n + fuel) ps
  = match poll time_sleep self poller fuel ps1 with
    | Some (r, ps', tr) => Some (r, ps', concat (replicate n (poll_events self)) ++ tr)
    | None => None
    end.
Proof.
  induction 1 as [ps | n ps ps1 ps' Hdone Hrest IH]; intros Hsleep; simpl.
  - destruct (poll time_sleep self poller fuel ps) as [[[r ps'] tr]|]; reflexivity.
  - assert (Hsleeps : time_sleep (poll_interval_ms self) = Ret tt) by (apply Hsleep; lia).
    rewrite Hdone, Hsleeps, (IH (fun _ => Hsleeps)).
    destruct (poll time_sleep self poller fuel ps') as [[[r ps''] tr]|]; [| reflexivity].
    now rewrite <- app_assoc.
Qed.

Lemma resolves_pending (n : nat) (ps ps' : St) :
  resolves_after poller n ps ps' <->
  exists ps1, pending_for poller n ps ps1 /\ done poller ps1 = (Ret true, ps').
Proof.
  split.
  - induction 1 as [ps ps' Hdone | n ps ps1 ps' Hdone Hrest (ps2 & Hpend & Hlast)].
    + exists ps. split; [constructor | exact Hdone].
    + exists ps2. split; [econstructor; eassumption | exact Hlast].
  - intros (ps1 & Hpend & Hlast).
    induction Hpend as [ps | n ps ps1 ps2 Hdone Hrest IH].
    + now constructor.
    + econstructor; [exact Hdone | now apply IH].
Qed.

End MonitorTrace.

(** X1: the events of a successful call, in order, when there is a progress
    stream and the sleeps return: the start message; for each of the [n]
    pending polls a marker, a flush and then a sleep of [poll_interval_ms];
    the line break and the finish message.  Nothing else happens. *)
Theorem monitor_events_with_stream {St T : Type}
    (time_sleep : Z -> res unit)
    (self : LongRunningOperation) (poller : Poller St T) (f : stream)
    (n : nat) (ps ps' ps'' : St) (v : T) (fuel : nat) :
  progress_file self = Some f ->
  (0 < n -> time_sleep (poll_interval_ms self) = Ret tt) ->
  resolves_after poller n ps ps' ->
  result poller ps' = (Ret v, ps'') ->
  n < fuel ->
  call time_sleep self poller fuel ps
  = Some (Ret v, ps'',
          [Write f (start_msg self +:+ nl)]
          ++ concat (replicate n [Write f "."; Flush f; Sleep (poll_interval_ms self)])
          ++ [Write f nl; Write f (finish_msg self +:+ nl)]).
Proof.
  intros Hf Hsleep Hres Hresult Hfuel.
  apply resolves_pending in Hres as (ps1 & Hpend & Hlast).
  unfold call. replace fuel with (n + S (fuel - S n)) by lia.
  rewrite (pending_poll time_sleep self poller n ps ps1 _ Hpend Hsleep).
  simpl. rewrite Hlast, Hresult.
  unfold finalizer, poll_events, marker_events, print. rewrite Hf. simpl.
  now rewrite app_nil_r.
Qed.

Lemma monitor_events_with_stream_witness :
  call sleep_example (LongRunningOperation_init "creating" "created" 250)
       (countdown_poller (Ret 7)) 5 2
  = Some (Ret 7, 0,
          [Write sys_stderr ("creating" +:+ nl)]
          ++ concat (replicate 2 [Write sys_stderr "."; Flush sys_stderr; Sleep 250])
          ++ [Write sys_stderr nl; Write sys_stderr ("created" +:+ nl)]).
Proof.
  apply (monitor_events_with_stream sleep_example
           (LongRunningOperation_init "creating" "created" 250)
           (countdown_poller (Ret 7)) sys_stderr 2 2 0 0 7 5).
  - reflexivity.
  - reflexivity.
  - repeat (eapply resolves_later; [reflexivity |]). apply resolves_now. reflexivity.
  - reflexivity.
  - lia.
Defined.

(** X2: with [progress_file] set to [None] the start message still goes out,
    to [sys.stdout] ([print] with [file=None]); no marker and no closing line
    is written anywhere, the [n] sleeps are made all the same (they are taken
    to return), and the result is returned. *)
Theorem monitor_without_stream {St T : Type}
    (time_sleep : Z -> res unit)
    (self : LongRunningOperation) (poller : Poller St T)
    (n : nat) (ps ps' ps'' : St) (v : T) (fuel : nat) :
  progress_file self = None ->
  (0 < n -> time_sleep (poll_interval_ms self) = Ret tt) ->
  resolves_after poller n ps ps' ->
  result poller ps' = (Ret v, ps'') ->
  n < fuel ->
  call time_sleep self poller fuel ps
  = Some (Ret v, ps'',
          Write sys_stdout (start_msg self +:+ nl)
          :: replicate n (Sleep (poll_interval_ms self))).
Proof.
  intros Hf Hsleep Hres Hresult Hfuel.
  apply resolves_pending in Hres as (ps1 & Hpend & Hlast).
  unfold call. replace fuel with (n + S (fuel - S n)) by lia.
  rewrite (pending_poll time_sleep self poller n ps ps1 _ Hpend Hsleep).
  simpl. rewrite Hlast, Hresult.
  unfold finalizer, poll_events, marker_events, print. rewrite Hf. simpl.
  rewrite !app_nil_r.
  do 3 f_equal. clear. induction n as [|n IH]; simpl; [reflexivity | now rewrite IH].
Qed.

Lemma monitor_without_stream_witness :
  call sleep_example
       {| start_msg := "creating"; finish_msg := "created";
          poll_interval_ms := 250; progress_file := None |}
       (countdown_poller (Ret 7)) 5 2
  = Some (Ret 7, 0, Write sys_stdout ("creating" +:+ nl) :: replicate 2 (Sleep 250)).
Proof.
  apply (monitor_without_stream sleep_example
           {| start_msg := "creating"; finish_msg := "created";
              poll_interval_ms := 250; progress_file := None |}
           (countdown_poller (Ret 7)) 2 2 0 0 7 5).
  - reflexivity.
  - reflexivity.
  - repeat (eapply resolves_later; [reflexivity |]). apply resolves_now. reflexivity.
  - reflexivity.
  - lia.
Defined.

(** X3: when [done()] itself raises after [n] pending polls (the sleeps
    between them are taken to return), [result()] is not asked: the poller is
    left in the state of that last [done()], the [finally] clause closes the
    line of markers with an empty line, and the exception of [done()] is the
    outcome. *)
Theorem monitor_done_raises {St T : Type}
    (time_sleep : Z -> res unit)
    (self : LongRunningOperation) (poller : Poller St T) (f : stream)
    (n : nat) (ps ps1 ps' : St) (e : exn) (fuel : nat) :
  progress_file self = Some f ->
  (0 < n -> time_sleep (poll_interval_ms self) = Ret tt) ->
  pending_for poller n ps ps1 ->
  done poller ps1 = (Raise e, ps') ->
  n < fuel ->
  exists tr,
    call time_sleep self poller fuel ps = Some (Raise e, ps', tr)
    /\ written f tr = start_msg self +:+ nl +:+ dots n +:+ nl +:+ nl.
Proof.
  intros Hf Hsleep Hpend Hlast Hfuel.
  assert (Hpoll : poll time_sleep self poller (S (fuel - S n)) ps1
                  = Some (Raise e, ps', [])).
  { simpl. now rewrite Hlast. }
  unfold call. replace fuel with (n + S (fuel - S n)) by lia.
  rewrite (pending_poll time_sleep self poller n ps ps1 _ Hpend Hsleep), Hpoll.
  eexists. split; [reflexivity |].
  rewrite !written_app, (written_finalizer self f Hf), Hf, written_print.
  assert (Hdots : written f (concat (replicate n (poll_events self))) = dots n).
  { clear -Hf. induction n as [|n IH]; simpl; [reflexivity |].
    now rewrite written_app, (written_poll_events self f Hf), IH. }
  rewrite Hdots. simpl written. now rewrite !append_assoc.
Qed.

Lemma monitor_done_raises_witness :
  exists tr,
    call sleep_example (LongRunningOperation_init "creating" "created" 250)
         {| done := fun ps : nat =>
                      match ps with
                      | O => (Raise (OtherError "lost"), O)
                      | S k => (Ret false, k)
                      end;
            result := fun ps => (Ret 7, ps) |} 5 2
    = Some (Raise (OtherError "lost"), 0, tr)
    /\ written sys_stderr tr = "creating" +:+ nl +:+ dots 2 +:+ nl +:+ nl.
Proof.
  apply (monitor_done_raises sleep_example
           (LongRunningOperation_init "creating" "created" 250)
           {| done := fun ps : nat =>
                        match ps with
                        | O => (Raise (OtherError "lost"), O)
                        | S k => (Ret false, k)
                        end;
              result := fun ps => (Ret 7, ps) |} sys_stderr 2 2 0 0
           (OtherError "lost") 5).
  - reflexivity.
  - reflexivity.
  - repeat (eapply pending_more; [reflexivity |]). apply pending_none.
  - reflexivity.
  - lia.
Defined.

(** X4: there is no timeout.  On a poller whose [done()] answers false in
    every state, and with sleeps that return, the call does not return,
    however long it is run. *)
Theorem monitor_never_returns {St T : Type}
    (time_sleep : Z -> res unit)
    (self : LongRunningOperation) (poller : Poller St T) :
  time_sleep (poll_interval_ms self) = Ret tt ->
  (forall ps, exists ps', done poller ps = (Ret false, ps')) ->
  forall fuel ps, call time_sleep self poller fuel ps = None.
Proof.
  intros Hsleep Hpending fuel ps. unfold call.
  assert (Hpoll : poll time_sleep self poller fuel ps = None); [| now rewrite Hpoll].
  revert ps. induction fuel as [|fuel IH]; intros ps; simpl; [reflexivity |].
  destruct (Hpending ps) as [ps' ->]. now rewrite Hsleep, IH.
Qed.

Lemma monitor_never_returns_witness :
  call sleep_example (LongRunningOperation_init "creating" "created" 250)
       {| done := fun ps : nat => (Ret false, S ps);
          result := fun ps => (Ret 7, ps) |} 1000 0 = None.
Proof.
  apply (monitor_never_returns sleep_example
           (LongRunningOperation_init "creating" "created" 250)
           {| done := fun ps : nat => (Ret false, S ps);
              result := fun ps => (Ret 7, ps) |}).
  - reflexivity.
  - intros ps. exists (S ps). reflexivity.
Defined.

(** X5: a call writes to its progress stream only: whatever the poller and
    [time.sleep] do and however the call ends, no other stream receives any
    text. *)
Theorem monitor_writes_to_progress_stream_only {St T : Type}
    (time_sleep : Z -> res unit)
    (self : LongRunningOperation) (poller : Poller St T) (f g : stream)
    (fuel : nat) (ps ps' : St) (r : res T) (tr : list event) :
  progress_file self = Some f ->
  g <> f ->
  call time_sleep self poller fuel ps = Some (r, ps', tr) ->
  written g tr = EmptyString.
Proof.
  intros Hf Hg.
  assert (Hprint : forall x e, written g (print x e (Some f)) = EmptyString).
  { intros x e. unfold print. simpl. destruct (decide (f = g)); congruence. }
  assert (Hfinal : forall b, written g (finalizer self b) = EmptyString).
  { intros b. unfold finalizer. rewrite Hf, written_app, !Hprint. reflexivity. }
  assert (Hmarker : written g (marker_events self) = EmptyString).
  { unfold marker_events. rewrite Hf, !written_app, Hprint. reflexivity. }
  assert (Hevents : written g (poll_events self) = EmptyString).
  { unfold poll_events. rewrite written_app, Hmarker. reflexivity. }
  assert (Hpoll : forall fuel ps r ps' tr,
            poll time_sleep self poller fuel ps = Some (r, ps', tr) ->
            written g tr = EmptyString).
  { clear fuel ps ps' r tr. induction fuel as [|fuel IH]; intros ps r ps' tr; cbn [poll];
      [discriminate |].
    destruct (done poller ps) as [[[|]|e] ps1].
    - now intros [= <- <- <-].
    - destruct (time_sleep (poll_interval_ms self)) as [u|e].
      + destruct (poll time_sleep self poller fuel ps1) as [[[r1 ps2] tr1]|] eqn:Hrest;
          [| discriminate].
        intros [= <- <- <-]. rewrite written_app, Hevents. simpl. eapply IH, Hrest.
      + intros [= <- <- <-]. exact Hmarker.
    - now intros [= <- <- <-]. }
  unfold call.
  destruct (poll time_sleep self poller fuel ps) as [[[[u|e] ps1] tr1]|] eqn:Hp;
    [| | discriminate].
  - destruct (result poller ps1) as [[v|e] ps2]; intros [= <- <- <-];
      rewrite Hf; simpl; destruct (decide (f = g)); try congruence;
      rewrite written_app, Hfinal, (Hpoll _ _ _ _ _ Hp); reflexivity.
  - intros [= <- <- <-].
    rewrite Hf; simpl; destruct (decide (f = g)); try congruence.
    rewrite written_app, Hfinal, (Hpoll _ _ _ _ _ Hp). reflexivity.
Qed.

Lemma monitor_writes_to_progress_stream_only_witness :
  written sys_stdout
    ([Write sys_stderr ("creating" +:+ nl)]
     ++ concat (replicate 2 [Write sys_stderr "."; Flush sys_stderr; Sleep 250])
     ++ [Write sys_stderr nl; Write sys_stderr ("created" +:+ nl)])
  = EmptyString.
Proof.
  apply (monitor_writes_to_progress_stream_only sleep_example
           (LongRunningOperation_init "creating" "created" 250)
           (countdown_poller (Ret 7)) sys_stderr sys_stdout 5 2 0 (Ret 7)).
  - reflexivity.
  - discriminate.
  - reflexivity.
Defined.

(** X22: a [time.sleep] that raises (a negative [poll_interval_ms]) ends the
    call at the first pending poll: the marker of that turn has been written
    and flushed, no sleep is made, neither [done()] nor [result()] is asked
    again, the [finally] clause writes its two line breaks, and the exception
    of [time.sleep] is the outcome. *)
Theorem monitor_sleep_raises {St T : Type}
    (time_sleep : Z -> res unit)
    (self : LongRunningOperation) (poller : Poller St T) (f : stream)
    (ps ps1 : St) (e : exn) (fuel : nat) :
  progress_file self = Some f ->
  time_sleep (poll_interval_ms self) = Raise e ->
  done poller ps = (Ret false, ps1) ->
  0 < fuel ->
  call time_sleep self poller fuel ps
  = Some (Raise e, ps1,
          [Write f (start_msg self +:+ nl); Write f "."; Flush f;
           Write f nl; Write f nl]).
Proof.
  intros Hf Hsleep Hdone Hfuel. destruct fuel as [|fuel]; [lia |].
  unfold call. simpl. rewrite Hdone, Hsleep.
  unfold finalizer, marker_events, print. rewrite Hf. reflexivity.
Qed.

Lemma monitor_sleep_raises_witness :
  call sleep_example (LongRunningOperation_init "creating" "created" (-5))
       (countdown_poller (Ret 7)) 3 1
  = Some (Raise (OtherError "ValueError"), 0,
          [Write sys_stderr ("creating" +:+ nl); Write sys_stderr ".";
           Flush sys_stderr; Write sys_stderr nl; Write sys_stderr nl]).
Proof.
  apply (monitor_sleep_raises sleep_example
           (LongRunningOperation_init "creating" "created" (-5))
           (countdown_poller (Ret 7)) sys_stderr 1 0 (OtherError "ValueError") 3).
  - reflexivity.
  - reflexivity.
  - reflexivity.
  - lia.
Defined.

(** ** The decorators: what they keep *)

Lemma dict_get_getitem_ne (f g : handler) (t : CommandTable) :
  g <> f -> dict_get g (getitem f t).2 = dict_get g t.
Proof.
  intros Hne. unfold getitem. destruct (dict_get f t); simpl; [reflexivity |].
  apply dict_get_set_ne. congruence.
Qed.

Lemma decorate_other (a : annotation) (f g : handler) (t : CommandTable) :
  g <> f -> dict_get g (decorate a f t).2 = dict_get g t.
Proof.
  intros Hne. assert (Hfg : f <> g) by congruence.
  destruct a as [name kwargs | text | help_file | name kwargs]; simpl.
  - unfold command. rewrite setfield_spec.
    destruct (getitem_spec f (dict_set f (<["name" := FVal (PStr name)]> (entry_of f t)) t))
      as (t' & -> & Hset).
    simpl. rewrite Hset, dict_set_set. now apply dict_get_set_ne.
  - unfold description. rewrite setfield_spec. simpl. now apply dict_get_set_ne.
  - unfold help. rewrite setfield_spec. simpl. now apply dict_get_set_ne.
  - unfold option_. pose proof (dict_get_getitem_ne f g t Hne) as Hget.
    destruct (getitem f t) as [e t1]. simpl in Hget.
    destruct (e !! "arguments") as [[v | l]|]; simpl; try exact Hget.
    now rewrite dict_get_set_ne.
Qed.

Lemma stack_other (anns : list annotation) (func other : handler) (self : CommandTable) :
  other <> func ->
  dict_get other (stack anns func self).2 = dict_get other self.
Proof.
  intros Hne. revert self. induction anns as [|a anns IH]; intros self; simpl;
    [reflexivity |].
  pose proof (decorate_other a func other self Hne) as Hstep.
  destruct (decorate a func self) as [[func'|e] self'] eqn:Hdec; simpl in Hstep;
    [| exact Hstep].
  apply decorate_returns_handler in Hdec as ->. now rewrite IH.
Qed.

(** X6: annotating a function that has no entry yet, with a stack in which
    no [command] passes [arguments=], leaves the entry of every other function
    as it is.  (The entry of the
    function then has the list its default entry was made with, which no other
    entry holds; a list passed as [arguments=] is stored as the object it is,
    and [option] appends to it in place, in every entry that holds it.) *)
Theorem stack_keeps_other_handlers
    (anns : list annotation) (func other : handler) (self : CommandTable) :
  other <> func ->
  dict_get func self = None ->
  Forall (fun a => writes a !! "arguments" = None) anns ->
  dict_get other (stack anns func self).2 = dict_get other self.
Proof. intros Hne _ _. now apply stack_other. Qed.

Lemma stack_keeps_other_handlers_witness :
  dict_get 1 (stack [ACommand "a b" ∅; AOption "--name -n" ∅] 2 table_A).2
  = dict_get 1 table_A.
Proof.
  apply (stack_keeps_other_handlers [ACommand "a b" ∅; AOption "--name -n" ∅] 2 1 table_A).
  - discriminate.
  - reflexivity.
  - repeat constructor; by_evaluation.
Defined.

Lemma Forall_dict_set {K V : Type} `{EqDecision K} (P : K * V -> Prop)
    (k : K) (v : V) (d : list (K * V)) :
  Forall P d -> P (k, v) -> Forall P (dict_set k v d).
Proof.
  intros Hd Hkv. induction Hd as [|[k1 v1] d H1 Hrest IH]; simpl.
  - now constructor.
  - destruct (decide (k1 = k)); constructor; assumption.
Qed.

Lemma wf_table_set (f : handler) (e : entry) (t : CommandTable) :
  wf_table t -> is_Some (e !! "arguments") -> wf_table (dict_set f e t).
Proof.
  intros [Hd Hargs] He. split; [now apply is_dict_set | now apply Forall_dict_set].
Qed.

Lemma wf_table_getitem (f : handler) (t : CommandTable) :
  wf_table t ->
  wf_table (getitem f t).2 /\ is_Some ((getitem f t).1 !! "arguments").
Proof.
  intros Hwf. unfold getitem. destruct (dict_get f t) as [e|] eqn:Hget; simpl.
  - split; [exact Hwf |]. destruct Hwf as [_ Hargs].
    rewrite Forall_forall in Hargs.
    apply (Hargs (f, e)), list_elem_of_In. now apply dict_get_In.
  - assert (He : is_Some (default_entry !! "arguments")).
    { unfold default_entry. rewrite lookup_singleton_eq. eauto. }
    split; [now apply wf_table_set | exact He].
Qed.

Lemma wf_table_setfield (f : handler) (k : string) (v : field) (t : CommandTable) :
  wf_table t -> wf_table (setfield f k v t).
Proof.
  intros Hwf. unfold setfield. destruct (wf_table_getitem f t Hwf) as [Hwf' He].
  destruct (getitem f t) as [e t1]. simpl in *. apply wf_table_set; [exact Hwf' |].
  destruct (decide (k = "arguments")) as [-> | Hk].
  - rewrite lookup_insert_eq. eauto.
  - now rewrite lookup_insert_ne.
Qed.

Lemma wf_table_decorate (a : annotation) (f : handler) (t : CommandTable) :
  wf_table t -> wf_table (decorate a f t).2.
Proof.
  intros Hwf. destruct a as [name kwargs | text | help_file | name kwargs]; simpl.
  - unfold command.
    pose proof (wf_table_setfield f "name" (FVal (PStr name)) t Hwf) as Hwf1.
    destruct (wf_table_getitem f _ Hwf1) as [Hwf2 He].
    destruct (getitem f (setfield f "name" (FVal (PStr name)) t)) as [e t2]. simpl in *.
    apply wf_table_set; [exact Hwf2 |].
    destruct He as [v Hv]. destruct (kwargs !! "arguments") as [w|] eqn:Hw.
    + exists w. now apply lookup_union_Some_l.
    + exists v. now rewrite lookup_union_r.
  - unfold description. simpl. now apply wf_table_setfield.
  - unfold help. simpl. now apply wf_table_setfield.
  - unfold option_. destruct (wf_table_getitem f t Hwf) as [Hwf1 He].
    destruct (getitem f t) as [e t1]. simpl in *.
    destruct (e !! "arguments") as [[v | l]|]; simpl; try exact Hwf1.
    apply wf_table_set; [exact Hwf1 |]. rewrite lookup_insert_eq. eauto.
Qed.

(** X7: the decorators keep a command table well formed: its handlers stay
    distinct and no entry is ever left without the key "arguments", whatever
    the annotations and whether or not one of them raises. *)
Theorem stack_keeps_table_well_formed
    (anns : list annotation) (func : handler) (self : CommandTable) :
  wf_table self -> wf_table (stack anns func self).2.
Proof.
  revert func self. induction anns as [|a anns IH]; intros func self Hwf; simpl;
    [exact Hwf |].
  pose proof (wf_table_decorate a func self Hwf) as Hstep.
  destruct (decorate a func self) as [[func'|e] self']; simpl in *;
    [now apply IH | exact Hstep].
Qed.

Lemma stack_keeps_table_well_formed_witness :
  wf_table (stack [AOption "--name -n" ∅; ACommand "a b" {[ "arguments" := FVal PNone ]};
                   AOption "--location -l" ∅] 2 table_A).2.
Proof.
  apply (stack_keeps_table_well_formed
           [AOption "--name -n" ∅; ACommand "a b" {[ "arguments" := FVal PNone ]};
            AOption "--location -l" ∅] 2 table_A).
  split; [by_evaluation |]. repeat constructor. simpl. by_evaluation.
Defined.

(** X8: a [command] that passes [arguments=] with a value that is no list
    makes the next [option] on the same function raise [AttributeError]: the
    exception replaces the function, and the table is left as [command] made
    it. *)
Theorem option_after_command_arguments
    (name : string) (kwargs : gmap string field) (v : pyval)
    (oname : string) (okwargs : argspec) (func : handler) (self : CommandTable) :
  kwargs !! "arguments" = Some (FVal v) ->
  stack [ACommand name kwargs; AOption oname okwargs] func self
  = (Raise (AttributeError "append"), (command name kwargs func self).2).
Proof.
  intros Hargs. simpl.
  assert (Hcmd : command name kwargs func self
                 = (Ret func, dict_set func (writes (ACommand name kwargs) ∪ entry_of func self) self)).
  { now apply (decorate_spec (ACommand name kwargs)). }
  rewrite Hcmd. simpl. unfold option_, getitem. rewrite dict_get_set_eq.
  rewrite (lookup_union_Some_l _ _ _ (FVal v)); [reflexivity |].
  now apply lookup_union_Some_l.
Qed.

Lemma option_after_command_arguments_witness :
  stack [ACommand "a b" {[ "arguments" := FVal PNone ]}; AOption "--name -n" ∅] 1 []
  = (Raise (AttributeError "append"),
     (command "a b" {[ "arguments" := FVal PNone ]} 1 []).2).
Proof.
  apply (option_after_command_arguments "a b" {[ "arguments" := FVal PNone ]} PNone
           "--name -n" ∅ 1 []).
  by_evaluation.
Defined.

Lemma apply_writes_app (l1 l2 : list annotation) (e : entry) :
  apply_writes (l1 ++ l2) e = apply_writes l2 (apply_writes l1 e).
Proof. unfold apply_writes. apply fold_left_app. Qed.

(** X9: the last annotation to set a field decides its value.  In a stack on
    a function without an entry, in which no [command] passes [arguments=], a
    field set by an annotation that no later annotation sets again has, in the
    end, the value of that annotation, whatever the earlier ones wrote. *)
Theorem last_annotation_wins
    (func : handler) (self : CommandTable)
    (before after : list annotation) (a : annotation) (k : string) (v : field) :
  dict_get func self = None ->
  Forall (fun b => writes b !! "arguments" = None) (before ++ a :: after) ->
  writes a !! k = Some v ->
  Forall (fun b => writes b !! k = None) after ->
  exists e,
    stack (before ++ a :: after) func self = (Ret func, dict_set func e self)
    /\ e !! k = Some v.
Proof.
  intros Hfresh Hargs Hk Hafter.
  assert (Hentry : entry_of func self = default_entry).
  { unfold entry_of. now rewrite Hfresh. }
  exists (<["arguments" := FArgs (specs (before ++ a :: after))]>
            (apply_writes (before ++ a :: after) default_entry)).
  split.
  - rewrite (stack_spec _ func self
               (<["arguments" := FArgs (specs (before ++ a :: after))]>
                  (apply_writes (before ++ a :: after) default_entry))).
    + destruct before; reflexivity.
    + rewrite Hentry. rewrite (annotate_all_spec _ default_entry []);
        [reflexivity | exact Hargs | apply lookup_singleton_eq].
  - assert (k <> "arguments").
    { intros ->. apply Forall_app in Hargs as [_ Hargs].
      apply Forall_cons in Hargs as [Ha _]. congruence. }
    rewrite lookup_insert_ne by congruence.
    rewrite apply_writes_app. change (a :: after) with ([a] ++ after).
    rewrite apply_writes_app, (apply_writes_untouched after _ k Hafter).
    simpl. now apply lookup_union_Some_l.
Qed.

Lemma last_annotation_wins_witness :
  exists e,
    stack ([ADescription "first"; ACommand "a b" {[ "description" := FVal (PStr "second") ]}]
           ++ ADescription "third" :: [AOption "--name -n" ∅; AHelp "h"]) 1 []
    = (Ret 1, dict_set 1 e [])
    /\ e !! "description" = Some (FVal (PStr "third")).
Proof.
  apply (last_annotation_wins 1 []
           [ADescription "first"; ACommand "a b" {[ "description" := FVal (PStr "second") ]}]
           [AOption "--name -n" ∅; AHelp "h"] (ADescription "third")
           "description" (FVal (PStr "third"))).
  - reflexivity.
  - repeat constructor; by_evaluation.
  - by_evaluation.
  - repeat constructor; by_evaluation.
Defined.

(** ** The sort of the loader: errors, ties, repetition *)

Lemma res_mapM_KeyError (t : CommandTable) :
  Exists (fun item => item.2 !! "name" = None) t ->
  res_mapM (fun item => k ← item_name item; Ret (k, item)) t = Raise (KeyError "name").
Proof.
  induction t as [|item t IH]; intros Hex; [now apply Exists_nil in Hex |].
  cbn [res_mapM]. destruct (item.2 !! "name") as [v|] eqn:Hname.
  - assert (Hitem : item_name item = Ret v) by (unfold item_name; now rewrite Hname).
    apply Exists_cons in Hex as [Hex | Hex]; [congruence |].
    rewrite Hitem, (IH Hex). reflexivity.
  - assert (Hitem : item_name item = Raise (KeyError "name"))
      by (unfold item_name; now rewrite Hname).
    rewrite Hitem. reflexivity.
Qed.

(** X10: an entry without the key "name" (a function that was given options
    or a description but no [command]) makes the sort raise [KeyError] on
    that key, whatever the other entries are. *)
Theorem ordered_commands_KeyError (t : CommandTable) :
  Exists (fun item => item.2 !! "name" = None) t ->
  ordered_commands t = Raise (KeyError "name").
Proof.
  intros Hex. unfold ordered_commands. now rewrite (res_mapM_KeyError t Hex).
Qed.

Lemma ordered_commands_KeyError_witness :
  ordered_commands (table_B ++ [(4, default_entry)]) = Raise (KeyError "name").
Proof.
  apply (ordered_commands_KeyError (table_B ++ [(4, default_entry)])).
  apply Exists_app. right. constructor. by_evaluation.
Defined.

Lemma dict_get_None_keys {K V : Type} `{EqDecision K} (k : K) (d : list (K * V)) :
  dict_get k d = None -> ~ In k (map fst d).
Proof.
  induction d as [|[k1 v1] d IH]; simpl; [tauto |].
  destruct (decide (k1 = k)); [discriminate |]. intros Hget [Heq | Hin]; [congruence |].
  now apply IH.
Qed.

(** X11: from the decorators to the loader: a module in which a function is
    annotated, but never with [command] (no annotation sets "name"), cannot
    be loaded by its name: [get_command_table] raises [KeyError] after
    importing it. *)
Theorem module_without_command_fails
    (import_module : string -> res module) (installed : list string)
    (name : string) (m : module) (imports : list string)
    (anns : list annotation) (func : handler) (self : CommandTable) :
  name <> EmptyString ->
  anns <> [] ->
  dict_get func self = None ->
  Forall (fun a => writes a !! "arguments" = None) anns ->
  Forall (fun a => writes a !! "name" = None) anns ->
  import_module (full_name name) = Ret m ->
  command_table m = Some (stack anns func self).2 ->
  get_command_table import_module installed (Some name) imports
  = (Raise (KeyError "name"), imports ++ [full_name name]).
Proof.
  intros Hname Hne Hfresh Hargs Hnoname Himport Htable.
  unfold get_command_table, load_named.
  replace (truthy (Some name)) with (Some name)
    by (destruct name; [congruence | reflexivity]).
  unfold _get_command_table. rewrite Himport, Htable. f_equal.
  apply ordered_commands_KeyError.
  assert (Hentry : entry_of func self = default_entry).
  { unfold entry_of. now rewrite Hfresh. }
  set (e := <["arguments" := FArgs (specs anns)]> (apply_writes anns default_entry)).
  assert (He : e !! "name" = None).
  { unfold e. rewrite lookup_insert_ne by discriminate.
    now rewrite (apply_writes_untouched anns default_entry "name" Hnoname). }
  rewrite (stack_spec anns func self e).
  - destruct anns as [|a anns']; [congruence |].
    rewrite dict_set_fresh by (apply dict_get_None_keys; exact Hfresh).
    apply Exists_app. right. constructor. exact He.
  - rewrite Hentry. unfold e. rewrite (annotate_all_spec anns default_entry []);
      [reflexivity | exact Hargs | apply lookup_singleton_eq].
Qed.

Lemma module_without_command_fails_witness :
  get_command_table
    (fun _ => Ret {| command_table :=
                       Some (stack [AOption "--name -n" ∅; ADescription "d"] 1 table_B).2 |})
    ["A"; "B"] (Some "vm") []
  = (Raise (KeyError "name"), [] ++ [full_name "vm"]).
Proof.
  apply (module_without_command_fails
           (fun _ => Ret {| command_table :=
                              Some (stack [AOption "--name -n" ∅; ADescription "d"] 1 table_B).2 |})
           ["A"; "B"] "vm"
           {| command_table :=
                Some (stack [AOption "--name -n" ∅; ADescription "d"] 1 table_B).2 |}
           [] [AOption "--name -n" ∅; ADescription "d"] 1 table_B).
  - discriminate.
  - discriminate.
  - reflexivity.
  - repeat constructor; by_evaluation.
  - repeat constructor; by_evaluation.
  - reflexivity.
  - reflexivity.
Defined.

Section StableSort.
Context {A : Type}.
Variable key : A -> string.

Lemma insert_by_filter (n : string) (x : A) (l : list A) :
  filter (fun y => key y = n) (insert_by key x l)
  = filter (fun y => key y = n) (x :: l).
Proof.
  induction l as [|y l IH]; simpl; [reflexivity |].
  destruct (str_leb (key x) (key y)) eqn:Hxy; [reflexivity |].
  rewrite !filter_cons in *. destruct (decide (key y = n)) as [Hy | Hy].
  - destruct (decide (key x = n)) as [Hx | Hx].
    + rewrite Hx, <- Hy, str_leb_refl in Hxy. discriminate.
    + now rewrite IH.
  - exact IH.
Qed.

(** The sort is stable: the items of one key keep their order. *)
Lemma sorted_filter (n : string) (l : list A) :
  filter (fun y => key y = n) (sorted key l) = filter (fun y => key y = n) l.
Proof.
  induction l as [|x l IH]; simpl; [reflexivity |].
  rewrite insert_by_filter, !filter_cons. now rewrite IH.
Qed.

(** Sorting a sorted list changes nothing. *)
Lemma sorted_of_sorted (l : list A) :
  StronglySorted (key_le key) l -> sorted key l = l.
Proof.
  induction 1 as [|x l Hsorted IH Hall]; simpl; [reflexivity |].
  rewrite IH. destruct Hall as [|y l' Hxy _]; simpl; [reflexivity |].
  unfold key_le, str_le in Hxy. now rewrite Hxy.
Qed.

End StableSort.

Lemma keyed_filter (n : string) (l : list (string * (handler * entry))) :
  Forall (fun si => name_of si.2.2 = Some si.1) l ->
  filter (fun item : handler * entry => name_of item.2 = Some n) (map snd l)
  = map snd (filter (fun si : string * (handler * entry) => fst si = n) l).
Proof.
  induction 1 as [|si l Hsi Hrest IH]; simpl; [reflexivity |].
  rewrite !filter_cons, IH, Hsi.
  destruct (decide (Some si.1 = Some n)) as [Heq | Hne];
    destruct (decide (si.1 = n)) as [Heq' | Hne']; try reflexivity; congruence.
Qed.

Lemma keyed_of_map_snd (l : list (string * (handler * entry))) :
  Forall (fun si => name_of si.2.2 = Some si.1) l -> keyed_of (map snd l) = l.
Proof.
  unfold keyed_of. induction 1 as [|[s item] l Hsi Hrest IH]; simpl; [reflexivity |].
  simpl in Hsi. now rewrite IH, Hsi.
Qed.

(** X12: the sort is stable.  The entries that have one and the same name
    come out in the order in which the table held them, so that of two
    handlers registered under one name the one merged first is listed first. *)
Theorem ordered_commands_stable (t t' : CommandTable) (n : string) :
  is_dict t ->
  ordered_commands t = Ret t' ->
  filter (fun item : handler * entry => name_of item.2 = Some n) t'
  = filter (fun item : handler * entry => name_of item.2 = Some n) t.
Proof.
  intros Hd Hret. apply ordered_commands_Ret in Hret as [Hnamed ->].
  pose proof (keyed_of_names t Hnamed) as Hkeyed.
  rewrite OrderedDict_is_dict
    by (unfold is_dict in *; now rewrite sorted_table_Permutation).
  rewrite keyed_filter.
  - rewrite sorted_filter, <- keyed_filter by exact Hkeyed.
    now rewrite map_snd_keyed_of.
  - eapply Permutation_Forall; [| exact Hkeyed]. symmetry. apply sorted_Permutation.
Qed.

Lemma ordered_commands_stable_witness :
  filter (fun item : handler * entry => name_of item.2 = Some "x y")
         [(3, named_entry "a b" "from B"); (1, named_entry "x y" "from A");
          (2, named_entry "x y" "from B")]
  = filter (fun item : handler * entry => name_of item.2 = Some "x y")
           (table_A ++ table_B).
Proof.
  apply (ordered_commands_stable (table_A ++ table_B)
           [(3, named_entry "a b" "from B"); (1, named_entry "x y" "from A");
            (2, named_entry "x y" "from B")] "x y").
  - by_evaluation.
  - by_evaluation.
Defined.

(** X13: sorting again changes nothing: the table that the sort returns is
    returned as it is when it is sorted once more. *)
Theorem ordered_commands_idempotent (t t' : CommandTable) :
  is_dict t ->
  ordered_commands t = Ret t' ->
  ordered_commands t' = Ret t'.
Proof.
  intros Hd Hret. apply ordered_commands_Ret in Hret as [Hnamed ->].
  pose proof (keyed_of_names t Hnamed) as Hkeyed.
  assert (Hsorted : Forall (fun si : string * (handler * entry) => name_of si.2.2 = Some si.1)
                           (sorted fst (keyed_of t))).
  { eapply Permutation_Forall; [| exact Hkeyed]. symmetry. apply sorted_Permutation. }
  assert (Hdict : is_dict (map snd (sorted fst (keyed_of t)))).
  { unfold is_dict in *. now rewrite sorted_table_Permutation. }
  rewrite (OrderedDict_is_dict _ Hdict). apply ordered_commands_Ret. split.
  - apply Forall_map. eapply Forall_impl; [exact Hsorted |].
    intros si Hsi. unfold named. simpl. rewrite Hsi. eauto.
  - rewrite (keyed_of_map_snd _ Hsorted).
    rewrite (sorted_of_sorted fst (sorted fst (keyed_of t)))
      by apply sorted_StronglySorted.
    now rewrite (OrderedDict_is_dict _ Hdict).
Qed.

Lemma ordered_commands_idempotent_witness :
  ordered_commands [(3, named_entry "a b" "from B"); (1, named_entry "x y" "from A");
                    (2, named_entry "x y" "from B")]
  = Ret [(3, named_entry "a b" "from B"); (1, named_entry "x y" "from A");
         (2, named_entry "x y" "from B")].
Proof.
  apply (ordered_commands_idempotent (table_A ++ table_B)).
  - by_evaluation.
  - by_evaluation.
Defined.

(** ** The loader: what is imported, and when *)

Section ImportLog.
Variable import_module : string -> res module.
Variable installed : list string.

Lemma load_named_imports (module_name : option string) (imports : list string) :
  snd (load_named import_module module_name imports)
  = imports ++ hint_attempt module_name.
Proof.
  unfold load_named, hint_attempt. destruct (truthy module_name) as [name|]; simpl;
    [| now rewrite app_nil_r].
  rewrite _get_command_table_imports.
  destruct (fst (_get_command_table import_module name [])) as [t|e]; [reflexivity |].
  destruct (is_ImportError e); reflexivity.
Qed.

Lemma load_all_app (before rest : list string) (tables : list CommandTable)
    (acc : CommandTable) (i : list string) :
  Forall2 (exports import_module) before tables ->
  load_all import_module (before ++ rest) acc i
  = load_all import_module rest (fold_left dict_update tables acc)
             (i ++ map full_name before).
Proof.
  intros Hall. revert acc i.
  induction Hall as [|name t before tables (m & Himport & Htable) Hrest IH];
    intros acc i; simpl.
  - now rewrite app_nil_r.
  - unfold _get_command_table at 1. rewrite Himport, Htable, IH.
    now rewrite <- app_assoc.
Qed.

Lemma get_command_table_fallback (module_name : option string) (imports : list string) :
  falls_back import_module module_name ->
  get_command_table import_module installed module_name imports
  = match load_all import_module installed [] (imports ++ hint_attempt module_name) with
    | (Ret t, imports') => (ordered_commands t, imports')
    | (Raise e, imports') => (Raise e, imports')
    end.
Proof.
  intros Hfb. unfold get_command_table.
  pose proof (load_named_falls_back import_module module_name imports Hfb) as Hfst.
  pose proof (load_named_imports module_name imports) as Hsnd.
  destruct (load_named import_module module_name imports) as [r i1].
  simpl in Hfst, Hsnd. now subst.
Qed.

End ImportLog.

(** X14: when the hint loads nothing and every installed module has a
    command table, the load imports each installed module once, in the order
    of [INSTALLED_COMMAND_MODULES], after the one attempt on the hint. *)
Theorem full_load_imports_each_once
    (import_module : string -> res module) (installed : list string)
    (tables : list CommandTable) (module_name : option string) (imports : list string) :
  falls_back import_module module_name ->
  Forall2 (exports import_module) installed tables ->
  snd (get_command_table import_module installed module_name imports)
  = imports ++ hint_attempt module_name ++ map full_name installed.
Proof.
  intros Hfb Hexports.
  rewrite (get_command_table_fallback _ _ _ _ Hfb).
  rewrite <- (app_nil_r installed) at 1.
  rewrite (load_all_app import_module installed [] tables _ _ Hexports). simpl.
  now rewrite <- app_assoc.
Qed.

Lemma full_load_imports_each_once_witness :
  snd (get_command_table import_example ["B"; "A"] (Some "vm") ["os"])
  = ["os"] ++ hint_attempt (Some "vm") ++ map full_name ["B"; "A"].
Proof.
  apply (full_load_imports_each_once import_example ["B"; "A"] [table_B; table_A]
           (Some "vm") ["os"]).
  - exists (ImportError (full_name "vm")). split; [by_evaluation | reflexivity].
  - constructor; [exists {| command_table := Some table_B |}; now split |].
    constructor; [exists {| command_table := Some table_A |}; now split |].
    constructor.
Defined.

(** X15: the load stops at the first installed module whose table cannot be
    had: its exception is the outcome, the modules before it have been
    imported, those after it are not imported at all. *)
Theorem full_load_stops_at_first_failure
    (import_module : string -> res module)
    (before after : list string) (bad : string) (tables : list CommandTable)
    (module_name : option string) (imports : list string) (e : exn) :
  falls_back import_module module_name ->
  Forall2 (exports import_module) before tables ->
  fst (_get_command_table import_module bad []) = Raise e ->
  get_command_table import_module (before ++ bad :: after) module_name imports
  = (Raise e,
     imports ++ hint_attempt module_name ++ map full_name before ++ [full_name bad]).
Proof.
  intros Hfb Hexports Hbad.
  rewrite (get_command_table_fallback _ _ _ _ Hfb).
  rewrite (load_all_app import_module before (bad :: after) tables _ _ Hexports).
  simpl. rewrite _get_command_table_imports, Hbad.
  now rewrite <- !app_assoc.
Qed.

Lemma full_load_stops_at_first_failure_witness :
  get_command_table import_example (["A"] ++ "bare" :: ["B"]) None []
  = (Raise (AttributeError "command_table"),
     [] ++ hint_attempt None ++ map full_name ["A"] ++ [full_name "bare"]).
Proof.
  apply (full_load_stops_at_first_failure import_example ["A"] ["B"] "bare" [table_A]
           None [] (AttributeError "command_table")).
  - exact I.
  - constructor; [exists {| command_table := Some table_A |}; now split | constructor].
  - by_evaluation.
Defined.



(** ** Module discovery: what [replace] makes of a key *)

Lemma startswith_strip_prefix (p s : string) :
  startswith p s = true <-> exists suffix, strip_prefix p s = Some suffix.
Proof.
  revert s. induction p as [|a p IH]; intros s; simpl.
  - split; [intros _; now exists s | reflexivity].
  - destruct s as [|b s]; [split; [discriminate | intros [? [=]]] |].
    destruct (Ascii.eqb a b); [apply IH | split; [discriminate | intros [? [=]]]].
Qed.

Lemma strip_prefix_append (p s suffix : string) :
  strip_prefix p s = Some suffix -> s = p +:+ suffix.
Proof.
  revert s. induction p as [|a p IH]; intros s; simpl.
  - now intros [= ->].
  - destruct s as [|b s]; [discriminate |].
    destruct (Ascii.eqb_spec a b) as [-> | _]; [| discriminate].
    intros Hstrip. rewrite append_cons. f_equal. now apply IH.
Qed.

Lemma replace_from_skip (old new a s : string) :
  replace_from old new (String.length a) (a +:+ s) = replace_from old new 0 s.
Proof.
  induction a as [|c a IH]; [reflexivity |].
  rewrite append_cons. simpl. exact IH.
Qed.

(** An occurrence at the head is replaced and the rest is gone through. *)
Lemma replace_head (old new s suffix : string) :
  old <> EmptyString ->
  strip_prefix old s = Some suffix ->
  replace old new s = new +:+ replace old new suffix.
Proof.
  intros Hold Hstrip.
  assert (Hstarts : startswith old s = true).
  { apply startswith_strip_prefix. now exists suffix. }
  apply strip_prefix_append in Hstrip as ->.
  destruct old as [|c old]; [congruence |].
  unfold replace. rewrite append_cons in *. cbn [replace_from].
  rewrite Hstarts. f_equal.
  replace (String.length (String c old) - 1) with (String.length old)
    by (simpl; lia).
  apply replace_from_skip.
Qed.

Lemma replace_no_occurrence (old new s : string) :
  occurs old s = false -> replace old new s = s.
Proof.
  unfold replace. induction s as [|c s IH]; [reflexivity |].
  cbn [occurs]. intros Hocc. apply orb_false_iff in Hocc as [Hhead Hrest].
  cbn [replace_from]. rewrite Hhead. f_equal. now apply IH.
Qed.

Lemma omap_cons_eq {A B : Type} (f : A -> option B) (x : A) (l : list A) :
  omap f (x :: l) = match f x with Some y => y :: omap f l | None => omap f l end.
Proof. reflexivity. Qed.

(** X17: what discovery yields, key by key and in the order of the
    distributions: nothing for a key that does not start with "azure-cli-";
    for a key that does, the rest of the key from which every further
    occurrence of "azure-cli-" has been taken out as well. *)
Theorem discovery_yields_replaced_suffixes (dists : list distribution) :
  INSTALLED_COMMAND_MODULES dists
  = omap (fun dist => replace "azure-cli-" EmptyString
                        <$> strip_prefix "azure-cli-" (key dist)) dists.
Proof.
  unfold INSTALLED_COMMAND_MODULES.
  induction dists as [|dist dists IH]; [reflexivity |].
  rewrite filter_cons, omap_cons_eq.
  destruct (decide (startswith "azure-cli-" (key dist) = true)) as [Hyes | Hno].
  - destruct (proj1 (startswith_strip_prefix _ _) Hyes) as [suffix Hstrip].
    rewrite Hstrip. cbn [fmap option_fmap option_map map]. f_equal; [| exact IH].
    now rewrite (replace_head "azure-cli-" EmptyString (key dist) suffix).
  - destruct (strip_prefix "azure-cli-" (key dist)) as [suffix|] eqn:Hstrip;
      [| exact IH].
    exfalso. apply Hno, startswith_strip_prefix. now exists suffix.
Qed.

(** X18: on an installation in which no key holds the text "azure-cli-"
    after its leading prefix, discovery yields the keys without their prefix:
    there the code and the stripping of a prefix agree. *)
Theorem discovery_strips_prefix_of_plain_keys (dists : list distribution) :
  Forall (fun dist => forall suffix,
            strip_prefix "azure-cli-" (key dist) = Some suffix ->
            occurs "azure-cli-" suffix = false) dists ->
  INSTALLED_COMMAND_MODULES dists
  = omap (fun dist => strip_prefix "azure-cli-" (key dist)) dists.
Proof.
  unfold INSTALLED_COMMAND_MODULES.
  induction 1 as [|dist dists Hplain Hrest IH]; [reflexivity |].
  rewrite filter_cons, omap_cons_eq.
  destruct (decide (startswith "azure-cli-" (key dist) = true)) as [Hyes | Hno].
  - destruct (proj1 (startswith_strip_prefix _ _) Hyes) as [suffix Hstrip].
    rewrite Hstrip. cbn [map]. f_equal; [| exact IH].
    rewrite (replace_head "azure-cli-" EmptyString (key dist) suffix);
      [| discriminate | exact Hstrip].
    now rewrite (replace_no_occurrence _ _ suffix (Hplain suffix Hstrip)).
  - destruct (strip_prefix "azure-cli-" (key dist)) as [suffix|] eqn:Hstrip;
      [| exact IH].
    exfalso. apply Hno, startswith_strip_prefix. now exists suffix.
Qed.

Lemma discovery_strips_prefix_of_plain_keys_witness :
  INSTALLED_COMMAND_MODULES
    [ {| key := "azure-cli-vm" |}; {| key := "pip" |}; {| key := "azure-cli-storage" |} ]
  = omap (fun dist => strip_prefix "azure-cli-" (key dist))
      [ {| key := "azure-cli-vm" |}; {| key := "pip" |}; {| key := "azure-cli-storage" |} ].
Proof.
  apply (discovery_strips_prefix_of_plain_keys
           [ {| key := "azure-cli-vm" |}; {| key := "pip" |};
             {| key := "azure-cli-storage" |} ]).
  repeat constructor; simpl; intros suffix [= <-]; reflexivity.
Defined.

(** ** The script that installs the command modules *)

Section InstallScriptFacts.
Variable PATH_TO_COMMAND_MODULES : string.
Variable path_join : string -> string -> string.
Variable listdir : list string.
Variable isdir : string -> bool.
Variable exit_status : string -> Z.
Variable str_err : CalledProcessError -> string.

Lemma install_each_failed (modules : list (string * string)) :
  map fst (install_each exit_status str_err modules).1
  = map fst (failing exit_status modules).
Proof.
  unfold failing. induction modules as [|module modules IH]; [reflexivity |].
  cbn [install_each]. rewrite filter_cons.
  destruct (install_each exit_status str_err modules) as [failed events].
  destruct (Z.eqb_spec (exit_status (pip_install module)) 0) as [Hok | Hbad];
    destruct (decide (exit_status (pip_install module) <> 0%Z)); try congruence;
    simpl in *; now rewrite ?IH.
Qed.

Lemma install_each_commands (modules : list (string * string)) :
  commands_run (install_each exit_status str_err modules).2 = map pip_install modules.
Proof.
  induction modules as [|module modules IH]; [reflexivity |].
  cbn [install_each].
  destruct (install_each exit_status str_err modules) as [failed events].
  destruct (exit_status (pip_install module) =? 0)%Z; simpl in *; now rewrite IH.
Qed.

Lemma commands_run_app (a b : list script_event) :
  commands_run (a ++ b) = commands_run a ++ commands_run b.
Proof. unfold commands_run. apply omap_app. Qed.

End InstallScriptFacts.

Lemma failing_nil (exit_status : string -> Z) (modules : list (string * string)) :
  failing exit_status modules = []
  <-> Forall (fun module => exit_status (pip_install module) = 0%Z) modules.
Proof.
  unfold failing. induction modules as [|module modules IH].
  - split; [constructor | reflexivity].
  - rewrite filter_cons, Forall_cons.
    destruct (decide (exit_status (pip_install module) <> 0%Z)) as [Hbad | Hok].
    + split; [discriminate | tauto].
    + rewrite IH. split; [| tauto]. intros Hrest. split; [| exact Hrest].
      destruct (decide (exit_status (pip_install module) = 0%Z)); tauto.
Qed.

(** X19: the script ends with status 0 exactly when it has found at least
    one command module and every install has ended with status 0; it ends
    with status 1 otherwise. *)
Theorem install_script_exit_status
    (PATH_TO_COMMAND_MODULES : string) (path_join : string -> string -> string)
    (listdir : list string) (isdir : string -> bool)
    (exit_status : string -> Z) (str_err : CalledProcessError -> string) :
  let modules := all_command_modules PATH_TO_COMMAND_MODULES path_join listdir isdir in
  let status :=
    (install_command_modules PATH_TO_COMMAND_MODULES path_join listdir isdir
                             exit_status str_err).1 in
  (status = 0%Z
   <-> modules <> []
       /\ Forall (fun module => exit_status (pip_install module) = 0%Z) modules)
  /\ (status = 0%Z \/ status = 1%Z).
Proof.
  intros modules status. subst status. unfold install_command_modules. fold modules.
  pose proof (install_each_failed exit_status str_err modules) as Hfailed.
  pose proof (failing_nil exit_status modules) as Hnil.
  destruct (decide (modules = [])) as [Hnone | Hsome]; simpl.
  - split; [| now right]. split; [discriminate | tauto].
  - destruct (install_each exit_status str_err modules) as [[|failed1 failed] events];
      simpl in *.
    + split; [| now left]. split; [| reflexivity]. intros _. split; [exact Hsome |].
      apply Hnil. symmetry in Hfailed. now apply map_eq_nil in Hfailed.
    + split; [| now right]. split; [discriminate |]. intros [_ Hall].
      apply Hnil in Hall. rewrite Hall in Hfailed. discriminate.
Qed.

(** X20: the script does not stop at a failed install.  Whatever the exit
    statuses, the shell commands it runs are the installs of all the command
    modules it has found, each once, in the order of the listing. *)
Theorem install_script_installs_every_module
    (PATH_TO_COMMAND_MODULES : string) (path_join : string -> string -> string)
    (listdir : list string) (isdir : string -> bool)
    (exit_status : string -> Z) (str_err : CalledProcessError -> string) :
  commands_run
    (install_command_modules PATH_TO_COMMAND_MODULES path_join listdir isdir
                             exit_status str_err).2
  = map pip_install (all_command_modules PATH_TO_COMMAND_MODULES path_join listdir isdir).
Proof.
  unfold install_command_modules.
  set (modules := all_command_modules PATH_TO_COMMAND_MODULES path_join listdir isdir).
  pose proof (install_each_commands exit_status str_err modules) as Hrun.
  destruct (decide (modules = [])) as [-> | Hsome]; [reflexivity |].
  destruct (install_each exit_status str_err modules) as [[|failed1 failed] events];
    simpl in *; rewrite !commands_run_app, Hrun; simpl; now rewrite !app_nil_r.
Qed.

(** X21: when an install fails, the last two lines of the script go to
    [sys.stderr] and name the number of the modules whose install failed and
    these modules, in the order of the listing; the status is 1. *)
Theorem install_script_reports_failures
    (PATH_TO_COMMAND_MODULES : string) (path_join : string -> string -> string)
    (listdir : list string) (isdir : string -> bool)
    (exit_status : string -> Z) (str_err : CalledProcessError -> string) :
  let modules := all_command_modules PATH_TO_COMMAND_MODULES path_join listdir isdir in
  failing exit_status modules <> [] ->
  exists events,
    install_command_modules PATH_TO_COMMAND_MODULES path_join listdir isdir
                            exit_status str_err
    = (1%Z,
       events
       ++ [Printed sys_stderr
             (pretty (length (failing exit_status modules))
              +:+ " module(s) FAILED install...");
           Printed sys_stderr
             ("Failed modules: "
              +:+ String.concat ", " (map fst (failing exit_status modules)))]).
Proof.
  intros modules Hfailing. unfold install_command_modules. fold modules.
  pose proof (install_each_failed exit_status str_err modules) as Hfailed.
  destruct (decide (modules = [])) as [Hnone | Hsome].
  - rewrite Hnone in Hfailing. now contradiction Hfailing.
  - destruct (install_each exit_status str_err modules) as [failed events].
    simpl in Hfailed. destruct failed as [|failed1 failed].
    + symmetry in Hfailed. apply map_eq_nil in Hfailed. contradiction.
    + eexists. f_equal. f_equal. rewrite <- Hfailed.
      assert (Hlen : length (failing exit_status modules) = length (failed1 :: failed)).
      { rewrite <- (length_map fst (failing exit_status modules)), <- Hfailed.
        now rewrite length_map. }
      now rewrite Hlen.
Qed.

Lemma install_script_reports_failures_witness :
  exists events,
    install_command_modules "/src" (fun a b => a +:+ "/" +:+ b)
      ["azure-cli-vm"; "README.md"; "azure-cli-storage"; "azure-cli-notes.txt"]
      (fun path => negb (String.eqb path "/src/azure-cli-notes.txt"))
      (fun c => if String.eqb c "pip install -e /src/azure-cli-vm" then 1%Z else 0%Z)
      (fun err => "Command failed: " +:+ cmd err)
    = (1%Z,
       events
       ++ [Printed sys_stderr
             (pretty (length
                (failing
                   (fun c => if String.eqb c "pip install -e /src/azure-cli-vm"
                             then 1%Z else 0%Z)
                   (all_command_modules "/src" (fun a b => a +:+ "/" +:+ b)
                      ["azure-cli-vm"; "README.md"; "azure-cli-storage";
                       "azure-cli-notes.txt"]
                      (fun path => negb (String.eqb path "/src/azure-cli-notes.txt")))))
              +:+ " module(s) FAILED install...");
           Printed sys_stderr
             ("Failed modules: "
              +:+ String.concat ", "
                    (map fst
                       (failing
                          (fun c => if String.eqb c "pip install -e /src/azure-cli-vm"
                                    then 1%Z else 0%Z)
                          (all_command_modules "/src" (fun a b => a +:+ "/" +:+ b)
                             ["azure-cli-vm"; "README.md"; "azure-cli-storage";
                              "azure-cli-notes.txt"]
                             (fun path =>
                                negb (String.eqb path "/src/azure-cli-notes.txt"))))))]).
Proof.
  apply (install_script_reports_failures "/src" (fun a b => a +:+ "/" +:+ b)
           ["azure-cli-vm"; "README.md"; "azure-cli-storage"; "azure-cli-notes.txt"]
           (fun path => negb (String.eqb path "/src/azure-cli-notes.txt"))
           (fun c => if String.eqb c "pip install -e /src/azure-cli-vm" then 1%Z else 0%Z)
           (fun err => "Command failed: " +:+ cmd err)).
  vm_compute. discriminate.
Defined.
